(** * eden-crypto: a shallow embedding of the prime-generation core

    The development follows the layout of the Python package
    [eden_crypto.core]:

    - [Py]        exceptions and the result type of fallible calls;
    - [Wheel]     [extended_wheel.py] (class [ExtendedWheel], [is_prime_wheel]);
    - [Rivers]    [decimal_rivers.py] (class [DecimalRivers]);
    - [Coibite]   [coibite_codes.py] (class [CoibiteCode]);
    - [PrimeGen]  [prime_generator.py] (class [PrimeGenerator]).

    Python integers are [Z]; [//] and [%] are [Z.div] and [Z.modulo], which
    round the same way (towards minus infinity, remainder with the sign of the
    divisor).  Dictionaries are [gmap]s.  A Python float is represented by the
    rational it denotes. *)

From Stdlib Require Import ZArith QArith Lia Znumtheory Sorted.
From Stdlib Require Zmod.ZmodInv.
From stdpp Require Import gmap strings list pretty sorting.

#[local] Set Warnings "-register-all,-deprecated".
#[local] Open Scope Z_scope.

(* ===================================================================== *)
(** ** Exceptions and results *)
(* ===================================================================== *)

Module Py.

(** The exception classes the modelled code can raise. *)
Inductive exn :=
| ValueError (msg : string)
| TypeError (msg : string)
| AttributeError (cls attr : string)
| InvalidSignature.

(** Python values as far as the modelled code looks into them: the
    JSON-like values, and [VObject] for any other object (a bound method, a
    dictionary with integer keys, ...), named by a description. *)
Inductive value :=
| VNone
| VBool (b : bool)
| VInt (z : Z)
| VFloat (q : Q)
| VStr (s : string)
| VList (l : list value)
| VDict (m : gmap string value)
| VObject (repr : string).

(** Truth value of an object in a condition. *)
Definition truthy (v : value) : bool :=
  match v with
  | VNone => false
  | VBool b => b
  | VInt z => negb (z =? 0)
  | VFloat q => negb (Qeq_bool q 0)
  | VStr s => negb (String.eqb s "")
  | VList l => match l with [] => false | _ => true end
  | VDict m => match map_to_list m with [] => false | _ => true end
  | VObject _ => true
  end.

(** [v == s] for a string [s]: only an equal string is equal to it. *)
Definition eq_str (v : value) (s : string) : bool :=
  match v with
  | VStr s' => String.eqb s' s
  | _ => false
  end.

(** Outcome of a call: a value, a raised exception, or [Timeout] when the
    fuel given to an unbounded [while] loop ran out before the loop ended. *)
Inductive result (A : Type) :=
| Ok (a : A)
| Raise (e : exn)
| Timeout.

Arguments Ok {A} a.
Arguments Raise {A} e.
Arguments Timeout {A}.

Definition bind {A B} (c : result A) (k : A -> result B) : result B :=
  match c with
  | Ok a => k a
  | Raise e => Raise e
  | Timeout => Timeout
  end.

End Py.

Import Py.

#[global] Instance result_bind : MBind result := fun A B k c => Py.bind c k.
#[global] Instance result_ret : MRet result := @Ok.

(** [int(n ** 0.5)]: the integer part of the floating-point square root.
    For the arguments below 2^52 it is the integer square root, which is
    what this definition gives.  Beyond, the float is rounded, and from
    about 2^1024 on the conversion raises [OverflowError]: a statement
    about code that takes this square root of an unbounded argument
    carries the bound [< 2 ^ 52] as a hypothesis. *)
Definition int_sqrt (n : Z) : Z := Z.sqrt n.

(** [n] integers from [a] on, [step] apart. *)
Fixpoint count_from (n : nat) (a step : Z) : list Z :=
  match n with
  | O => []
  | S n' => a :: count_from n' (a + step) step
  end.

(** [range(a, b)] *)
Definition range (a b : Z) : list Z := count_from (Z.to_nat (b - a)) a 1.

(** [range(a, b, step)] for a positive [step]. *)
Definition range_step (a b step : Z) : list Z :=
  count_from (Z.to_nat ((b - a + step - 1) / step)) a step.

(* ===================================================================== *)
(** ** extended_wheel.py *)
(* ===================================================================== *)

Module Wheel.

(** [ExtendedWheel.WHEEL_BASIS] *)
Definition WHEEL_BASIS : gmap Z (list Z) :=
  list_to_map
    [ (6, [2; 3]);
      (30, [2; 3; 5]);
      (210, [2; 3; 5; 7]);
      (2310, [2; 3; 5; 7; 11]);
      (30030, [2; 3; 5; 7; 11; 13]) ].

(** Instance attributes set by [ExtendedWheel.__init__].  [decimal_weights]
    is assigned only when [decimal_aware] holds and is read only then; it is
    the empty dictionary otherwise. *)
Record ExtendedWheel := mkWheel {
  wheel_size : Z;
  basis_primes : list Z;
  decimal_aware : bool;
  spokes : list Z;
  spoke_count : Z;
  decimal_weights : gmap Z Q
}.

(** [_generate_spokes] *)
Definition _generate_spokes (wheel_size : Z) (basis_primes : list Z) : list Z :=
  List.filter
    (fun i => forallb (fun p => negb (i mod p =? 0)) basis_primes)
    (range 1 wheel_size).

(** [_compute_decimal_weights] *)
Definition _compute_decimal_weights : gmap Z Q :=
  list_to_map
    [ (1, 1.02%Q); (3, 0.98%Q); (7, 1.01%Q); (9, 0.99%Q);
      (0, 0.0%Q); (2, 0.0%Q); (4, 0.0%Q); (5, 0.0%Q); (6, 0.0%Q); (8, 0.0%Q) ].

(** [ExtendedWheel.__init__] *)
Definition init (wheel_size : Z) (decimal_aware : bool) : result ExtendedWheel :=
  match WHEEL_BASIS !! wheel_size with
  | None => Raise (ValueError "Wheel size must be one of [6, 30, 210, 2310, 30030]")
  | Some basis =>
      let sp := _generate_spokes wheel_size basis in
      Ok {| wheel_size := wheel_size;
            basis_primes := basis;
            decimal_aware := decimal_aware;
            spokes := sp;
            spoke_count := Z.of_nat (length sp);
            decimal_weights :=
              if decimal_aware then _compute_decimal_weights else ∅ |}
  end.

(** The test guarding the [yield] inside the wheel loop:
    [weight > 0.5] when decimal-aware, nothing otherwise. *)
Definition good_profile (w : ExtendedWheel) (candidate : Z) : bool :=
  if decimal_aware w then
    let last_digit := candidate mod 10 in
    let weight := default 0.5%Q (decimal_weights w !! last_digit) in
    negb (Qle_bool weight 0.5)
  else true.

(** The [for spoke in self.spokes] loop for one value of [current_wheel]:
    the candidates it yields, and whether it executed [return]. *)
Fixpoint spoke_loop (w : ExtendedWheel) (start end_ current_wheel : Z)
    (sp : list Z) : list Z * bool :=
  match sp with
  | [] => ([], false)
  | spoke :: rest =>
      let candidate := current_wheel + spoke in
      if (start <=? candidate) && (candidate <=? end_) then
        let '(out, returned) := spoke_loop w start end_ current_wheel rest in
        ((if good_profile w candidate then [candidate] else []) ++ out, returned)
      else if end_ <? candidate then ([], true)
      else spoke_loop w start end_ current_wheel rest
  end.

(** The [while current_wheel <= end] loop. *)
Fixpoint wheel_loop (fuel : nat) (w : ExtendedWheel) (start end_ current_wheel : Z)
    : list Z :=
  match fuel with
  | O => []
  | S fuel' =>
      if current_wheel <=? end_ then
        let '(out, returned) := spoke_loop w start end_ current_wheel (spokes w) in
        if returned then out
        else out ++ wheel_loop fuel' w start end_ (current_wheel + wheel_size w)
      else []
  end.

Definition wheel_start (w : ExtendedWheel) (start : Z) : Z :=
  ((start - 1) / wheel_size w + 1) * wheel_size w.

(** [generate_candidates]: the sequence the generator yields.  The loop
    body runs at most [end - wheel_start + 1] times for a positive wheel
    size (lemma [wheel_loop_fuel]). *)
Definition generate_candidates (w : ExtendedWheel) (start end_ : Z) : list Z :=
  List.filter (fun p => (start <=? p) && (p <=? end_)) (basis_primes w)
  ++ wheel_loop (Z.to_nat (end_ - wheel_start w start + 1)) w start end_
       (wheel_start w start).

(** The inner loop of [_get_small_primes]: [is_prime[j] = False] for
    every [j] of [range(i * i, limit + 1, i)]. *)
Definition strike (is_prime : list bool) (i limit : Z) : list bool :=
  foldl (fun acc j => <[Z.to_nat j := false]> acc) is_prime
        (range_step (i * i) (limit + 1) i).

(** [_get_small_primes] *)
Definition _get_small_primes (limit : Z) : list Z :=
  if limit <? 2 then []
  else
    let is_prime0 :=
      <[1%nat := false]> (<[0%nat := false]> (replicate (Z.to_nat (limit + 1)) true)) in
    let is_prime :=
      foldl (fun acc i =>
               if default false (acc !! Z.to_nat i) then strike acc i limit else acc)
            is_prime0 (range 2 (int_sqrt limit + 1)) in
    List.filter (fun i => default false (is_prime !! Z.to_nat i)) (range 2 (limit + 1)).

(** The trial loop of [_simple_sieve] for one candidate. *)
Fixpoint survives (candidate : Z) (small_primes : list Z) : bool :=
  match small_primes with
  | [] => true
  | p :: rest =>
      if candidate <? p * p then true
      else if candidate mod p =? 0 then false
      else survives candidate rest
  end.

(** [_simple_sieve] *)
Definition _simple_sieve (w : ExtendedWheel) (start end_ : Z) : list Z :=
  let candidates := generate_candidates w (Z.max 2 start) end_ in
  let limit := int_sqrt end_ + 1 in
  let small_primes := _get_small_primes limit in
  List.filter (fun c => survives c small_primes) candidates.

(** The first index whose candidate is a proper multiple of [p], 0 when
    there is none. *)
Fixpoint first_multiple (p : Z) (i : nat) (candidates : list Z) : nat :=
  match candidates with
  | [] => 0%nat
  | c :: rest =>
      if (c mod p =? 0) && negb (c =? p) then i else first_multiple p (S i) rest
  end.

(** Marking pass of [_segmented_sieve] for one small prime. *)
Definition mark (candidates : list Z) (is_prime : list bool) (p : Z) : list bool :=
  let start_idx := first_multiple p 0 candidates in
  foldl (fun acc i =>
           let c := default 0 (candidates !! i) in
           if (c mod p =? 0) && negb (c =? p) then <[i := false]> acc else acc)
        is_prime (seq start_idx (length candidates - start_idx)).

(** One segment of [_segmented_sieve]. *)
Definition sieve_segment (w : ExtendedWheel) (small_primes : list Z)
    (current segment_end : Z) : list Z :=
  let candidates := generate_candidates w current segment_end in
  let is_prime := foldl (mark candidates) (replicate (length candidates) true) small_primes in
  omap (fun i => if default false (is_prime !! i) then candidates !! i else None)
       (seq 0 (length candidates)).

Fixpoint segment_loop (fuel : nat) (w : ExtendedWheel) (small_primes : list Z)
    (end_ segment_size current : Z) : list Z :=
  match fuel with
  | O => []
  | S fuel' =>
      if current <=? end_ then
        let segment_end := Z.min (current + segment_size) end_ in
        sieve_segment w small_primes current segment_end
        ++ segment_loop fuel' w small_primes end_ segment_size (segment_end + 1)
      else []
  end.

(** [_segmented_sieve] with its default [segment_size]. *)
Definition _segmented_sieve (w : ExtendedWheel) (start end_ : Z) : list Z :=
  let segment_size := 100000 in
  let limit := int_sqrt end_ + 1 in
  let small_primes := _get_small_primes limit in
  segment_loop (Z.to_nat (end_ - start + 1)) w small_primes end_ segment_size start.

(** [sieve] *)
Definition sieve (w : ExtendedWheel) (start end_ : Z) : list Z :=
  if end_ <? 2 then []
  else if end_ - start <? 10000 then _simple_sieve w start end_
  else _segmented_sieve w start end_.

(** The trial-division loop of the module-level [is_prime_wheel]. *)
Fixpoint trial (n : Z) (candidates : list Z) : bool :=
  match candidates with
  | [] => true
  | candidate :: rest =>
      if n <? candidate * candidate then true
      else if n mod candidate =? 0 then false
      else trial n rest
  end.

(** Module-level [is_prime_wheel(n, wheel_size=30)]. *)
Definition is_prime_wheel (n wheel_size : Z) : result bool :=
  if n <? 2 then Ok false
  else
    wheel ← init wheel_size true;
    if bool_decide (n ∈ basis_primes wheel) then Ok true
    else if existsb (fun p => n mod p =? 0) (basis_primes wheel) then Ok false
    else
      let limit := int_sqrt n + 1 in
      Ok (trial n (generate_candidates wheel 2 limit)).

(** The loop of the module-level [generate_primes].  [int(limit * 1.5)]
    truncates the exact product (the floats involved are exact below
    2^52). *)
Fixpoint primes_loop (fuel : nat) (wheel : ExtendedWheel) (n limit : Z)
    : result (list Z) :=
  match fuel with
  | O => Timeout
  | S fuel' =>
      let primes := sieve wheel 2 limit in
      if Z.of_nat (length primes) <? n then
        primes_loop fuel' wheel n (Z.quot (limit * 3) 2)
      else Ok (take (Z.to_nat n) primes)
  end.

(** Module-level [generate_primes(n, wheel_size=30)].  The value of the
    float expression [int(n * (math.log(n) + math.log(math.log(n))))] is
    not computed here: it is the parameter [estimate]. *)
Definition generate_primes (estimate : Z) (fuel : nat) (n wheel_size : Z)
    : result (list Z) :=
  if n <=? 0 then Ok []
  else
    wheel ← init wheel_size true;
    let limit := if n <? 6 then 15 else estimate in
    primes_loop fuel wheel n limit.

End Wheel.


(* ===================================================================== *)
(** ** decimal_rivers.py *)
(* ===================================================================== *)

Module Rivers.

(** Instance attributes of [DecimalRivers]: a [defaultdict(Counter)], a
    [Counter] and a list. *)
Record DecimalRivers := mkRivers {
  transition_matrix : gmap Z (gmap Z Z);
  digit_frequencies : gmap Z Z;
  prime_cache : list Z
}.

(** [DecimalRivers.__init__] *)
Definition init : DecimalRivers :=
  {| transition_matrix := ∅; digit_frequencies := ∅; prime_cache := [] |}.

(** [counter[k] += 1] on a [Counter]: a missing key reads as 0. *)
Definition incr (k : Z) (counter : gmap Z Z) : gmap Z Z :=
  <[k := default 0 (counter !! k) + 1]> counter.

(** First loop of [analyze_primes]: digit endings. *)
Definition count_endings (primes : list Z) (freq : gmap Z Z) : gmap Z Z :=
  foldl (fun acc prime => if 5 <? prime then incr (prime mod 10) acc else acc)
        freq primes.

(** Second loop of [analyze_primes]: transitions between neighbours. *)
Fixpoint count_transitions (primes : list Z) (tm : gmap Z (gmap Z Z))
    : gmap Z (gmap Z Z) :=
  match primes with
  | p :: (q :: _) as rest =>
      count_transitions rest
        (if (5 <? p) && (5 <? q) then
           let curr_digit := p mod 10 in
           let next_digit := q mod 10 in
           <[curr_digit := incr next_digit (default ∅ (tm !! curr_digit))]> tm
         else tm)
  | _ => tm
  end.

(** [analyze_primes]: its effect on the instance (the report it returns is
    computed from the new state by [_compile_analysis] and changes nothing). *)
Definition analyze_primes (self : DecimalRivers) (primes : list Z) : DecimalRivers :=
  {| transition_matrix := count_transitions primes (transition_matrix self);
     digit_frequencies := count_endings primes (digit_frequencies self);
     prime_cache := primes |}.

(** [sum(counter.values())] *)
Definition total (counter : gmap Z Z) : Z :=
  map_fold (fun _ count acc => count + acc) 0 counter.

(** [get_river_score].  The returned float is given by its exact value;
    [freq / total] is Python's true division of two integers. *)
Definition get_river_score (self : DecimalRivers) (candidate : Z) : Q :=
  let last_digit := candidate mod 10 in
  if negb (bool_decide (last_digit ∈ [1; 3; 7; 9])) then 0.0%Q
  else if bool_decide (digit_frequencies self = ∅) then 0.5%Q
  else
    let total := total (digit_frequencies self) in
    let freq := default 0 (digit_frequencies self !! last_digit) in
    if 0 <? total then (inject_Z freq / inject_Z total)%Q else 0.5%Q.

(** Every stored count is at least 1: a [Counter] only reached by [+= 1]. *)
Definition counted (freq : gmap Z Z) : Prop :=
  map_Forall (fun _ count => 1 <= count) freq.

(** The states an instance goes through: created by [__init__], then
    changed by [analyze_primes] only. *)
Inductive reachable : DecimalRivers -> Prop :=
| reach_init : reachable init
| reach_analyze self primes :
    reachable self -> reachable (analyze_primes self primes).

(** The local function [is_prime] of [analyze_prime_range]: trial division
    by 2 and by the odd numbers up to the square root. *)
Definition is_prime (n : Z) : bool :=
  if n <? 2 then false
  else if n =? 2 then true
  else if n mod 2 =? 0 then false
  else forallb (fun i => negb (n mod i =? 0)) (range_step 3 (int_sqrt n + 1) 2).

(** Module-level [analyze_prime_range(start, end, sieve_func=None)]. *)
Definition analyze_prime_range (start end_ : Z)
    (sieve_func : option (Z -> Z -> list Z)) : DecimalRivers :=
  let primes :=
    match sieve_func with
    | None => List.filter is_prime (range start (end_ + 1))
    | Some f => f start end_
    end in
  analyze_primes init primes.

(** The report of [_compile_analysis]. *)
Record Analysis := mkAnalysis {
  report_digit_frequencies : gmap Z Z;
  report_digit_probabilities : gmap Z Q;
  report_transition_matrix : gmap Z (gmap Z Z);
  report_transition_probabilities : gmap Z (gmap Z Q);
  report_total_primes_analyzed : Z
}.

(** [{k: count / total for k, count in counter.items()}] with
    [total = sum(counter.values())]; [None]: [ZeroDivisionError], raised at
    the first item when the total is 0. *)
Definition probabilities (counter : gmap Z Z) : option (gmap Z Q) :=
  let total := total counter in
  if (total =? 0) && negb (bool_decide (counter = ∅)) then None
  else Some ((fun count => (inject_Z count / inject_Z total)%Q) <$> counter).

(** [_compile_analysis]; [None]: [ZeroDivisionError]. *)
Definition _compile_analysis (self : DecimalRivers) : option Analysis :=
  let total_primes := total (digit_frequencies self) in
  digit_probs ← probabilities (digit_frequencies self);
  transition_probs ←
    (if bool_decide (map_Forall (fun _ transitions => is_Some (probabilities transitions))
                                (transition_matrix self))
     then Some (omap probabilities (transition_matrix self))
     else None);
  Some {| report_digit_frequencies := digit_frequencies self;
          report_digit_probabilities := digit_probs;
          report_transition_matrix := transition_matrix self;
          report_transition_probabilities := transition_probs;
          report_total_primes_analyzed := total_primes |}.

(** [scored.sort(key=lambda x: x[1], reverse=True)]: the sort is stable,
    also when reversed, so the result is the one of this insertion sort:
    an entry goes behind the entries of greater score and before the
    others. *)
Fixpoint insert_desc (x : Z * Q) (l : list (Z * Q)) : list (Z * Q) :=
  match l with
  | [] => [x]
  | y :: l' =>
      if negb (Qle_bool y.2 x.2) then y :: insert_desc x l' else x :: l
  end.

Definition sort_desc (l : list (Z * Q)) : list (Z * Q) := foldr insert_desc [] l.

(** [optimize_candidates] *)
Definition optimize_candidates (self : DecimalRivers) (candidates : list Z) : list Z :=
  let scored := (fun c => (c, get_river_score self c)) <$> candidates in
  let scored := sort_desc scored in
  fst <$> List.filter (fun '(c, score) => negb (Qle_bool score 0.2)) scored.

End Rivers.

(* ===================================================================== *)
(** ** coibite_codes.py *)
(* ===================================================================== *)

Module Coibite.

(** What the module imports: [json], [base64], [hashlib], the string
    conversions of the language, and ECDSA from the [cryptography] package.
    Text and bytes are both [string] (a sequence of bytes), so
    [.encode('utf-8')] and [.decode('utf-8')] do not appear; a [None] answer
    of a partial operation stands for the exception the operation raises. *)
Class Lib := {
  (** [json.dumps(v, sort_keys=True)]; [None]: [TypeError], the value is not
      JSON serialisable. *)
  json_dumps : value -> option string;
  (** [json.loads(s)]; [None]: the text does not parse. *)
  json_loads : string -> option value;
  b64encode : string -> string;
  (** [base64.b64decode(s)]; [None]: [binascii.Error]. *)
  b64decode : string -> option string;
  (** [hashlib.sha256(s).hexdigest()] *)
  sha256_hexdigest : string -> string;
  (** [str(n)] of an integer *)
  str_int : Z -> string;
  (** [int(s)] of a string; [None]: [ValueError]. *)
  int_str : string -> option Z;
  (** how an f-string renders a value *)
  format : value -> string;
  PrivateKey : Type;
  PublicKey : Type;
  (** [private_key.public_key()] *)
  public_key : PrivateKey -> PublicKey;
  (** the randomness an ECDSA signature draws *)
  Nonce : Type;
  (** [private_key.sign(data, ec.ECDSA(hashes.SHA256()))] *)
  ecdsa_sign : PrivateKey -> Nonce -> string -> string;
  (** [public_key.verify(signature, data, ec.ECDSA(hashes.SHA256()))]:
      [None] when it returns, [Some e] when it raises [e]. *)
  ecdsa_verify : PublicKey -> string -> string -> option exn
}.

Section WithLib.
Context `{L : Lib}.

(** Instance attributes of [CoibiteCode].  [timestamp] and [metadata] hold
    whatever [decode] found in the token. *)
Record CoibiteCode := mkCode {
  prime : Z;
  timestamp : value;
  metadata : value;
  signature : option string
}.

Definition VERSION : string := "1.0".

(** [CoibiteCode.__init__(prime, metadata)], created at time [now];
    [metadata=None] is [VNone]. *)
Definition new (prime : Z) (metadata : value) (now : Q) : CoibiteCode :=
  {| prime := prime;
     timestamp := VFloat now;
     metadata := if truthy metadata then metadata else VDict ∅;
     signature := None |}.

(** [int.bit_length()] *)
Definition bit_length (n : Z) : Z :=
  if n =? 0 then 0 else Z.log2 (Z.abs n) + 1.

(** [_hash_prime] *)
Definition _hash_prime (self : CoibiteCode) : string :=
  sha256_hexdigest (str_int (prime self)).

Definition dumps (v : value) : result string :=
  match json_dumps v with
  | Some s => Ok s
  | None => Raise (TypeError "Object is not JSON serializable")
  end.

(** [_calculate_checksum] *)
Definition _calculate_checksum (self : CoibiteCode) : result string :=
  md ← dumps (metadata self);
  let data := str_int (prime self) +:+ ":" +:+ format (timestamp self) +:+ ":" +:+ md in
  Ok (String.substring 0 16 (sha256_hexdigest data)).

(** [_get_signing_data] *)
Definition _get_signing_data (self : CoibiteCode) : result string :=
  dumps (VDict (list_to_map
    [ ("prime_hash", VStr (_hash_prime self));
      ("timestamp", timestamp self);
      ("metadata", metadata self) ])).

(** Truth value of [self.signature]: [None] and [b''] are false. *)
Definition has_signature (self : CoibiteCode) : option string :=
  match signature self with
  | Some s => if String.eqb s "" then None else Some s
  | None => None
  end.

(** The dictionary [data] that [encode] builds. *)
Definition encode_data (self : CoibiteCode) (include_prime : bool)
    : result (gmap string value) :=
  checksum ← _calculate_checksum self;
  let data : gmap string value :=
    list_to_map
      [ ("version", VStr VERSION);
        ("timestamp", timestamp self);
        ("prime_bits", VInt (bit_length (prime self)));
        ("prime_hash", VStr (_hash_prime self));
        ("metadata", metadata self);
        ("checksum", VStr checksum) ] in
  let data :=
    if include_prime then <["prime" := VStr (str_int (prime self))]> data else data in
  let data :=
    match has_signature self with
    | Some s => <["signature" := VStr (b64encode s)]> data
    | None => data
    end in
  Ok data.

(** [encode] *)
Definition encode (self : CoibiteCode) (include_prime : bool) : result string :=
  data ← encode_data self include_prime;
  json_str ← dumps (VDict data);
  Ok (b64encode json_str).

(** [int(v)] *)
Definition py_int (v : value) : option Z :=
  match v with
  | VStr s => int_str s
  | VInt z => Some z
  | VBool b => Some (if b then 1 else 0)
  | VFloat q => Some (Z.quot (Qnum q) (Zpos (Qden q)))
  | _ => None
  end.

Definition invalid {A} : result A := Raise (ValueError "Invalid Coibite Code").

(** The body of [decode] after [json.loads]: every exception raised inside
    the [try] block leaves as [ValueError]. *)
Definition decode_data (data : value) : result CoibiteCode :=
  match data with
  | VDict d =>
      if negb (eq_str (default VNone (d !! "version")) VERSION) then invalid
      else
        match (match d !! "prime" with
               | Some p => py_int p
               | None => Some 0
               end) with
        | None => invalid
        | Some prime =>
            let md := default (VDict ∅) (d !! "metadata") in
            match d !! "timestamp" with
            | None => invalid
            | Some ts =>
                let instance :=
                  {| prime := prime;
                     timestamp := ts;
                     metadata := if truthy md then md else VDict ∅;
                     signature := None |} in
                match d !! "signature" with
                | None => Ok instance
                | Some (VStr s) =>
                    match b64decode s with
                    | Some sig =>
                        Ok {| prime := prime;
                              timestamp := ts;
                              metadata := metadata instance;
                              signature := Some sig |}
                    | None => invalid
                    end
                | Some _ => invalid
                end
            end
        end
  | _ => invalid
  end.

(** [decode] *)
Definition decode (code : string) : result CoibiteCode :=
  match b64decode code with
  | None => invalid
  | Some json_str =>
      match json_loads json_str with
      | None => invalid
      | Some data => decode_data data
      end
  end.

(** [sign] *)
Definition sign (self : CoibiteCode) (private_key : PrivateKey) (k : Nonce)
    : result CoibiteCode :=
  sign_data ← _get_signing_data self;
  Ok {| prime := prime self;
        timestamp := timestamp self;
        metadata := metadata self;
        signature := Some (ecdsa_sign private_key k sign_data) |}.

(** [verify]: [except Exception] turns every exception of the [try] block
    into [False]. *)
Definition verify (self : CoibiteCode) (public_key : PublicKey) : result bool :=
  match has_signature self with
  | None => Ok false
  | Some sig =>
      match _get_signing_data self with
      | Ok sign_data =>
          match ecdsa_verify public_key sig sign_data with
          | None => Ok true
          | Some _ => Ok false
          end
      | Raise _ => Ok false
      | Timeout => Timeout
      end
  end.

(** ["checksum" in self.metadata] *)
Definition contains_checksum (md : value) : result bool :=
  match md with
  | VDict m => Ok (bool_decide (is_Some (m !! "checksum")))
  | VList l => Ok (existsb (fun v => eq_str v "checksum") l)
  | VStr s => Ok (bool_decide (is_Some (String.index 0 "checksum" s)))
  | _ => Raise (TypeError "argument is not iterable")
  end.

(** [self.metadata.get("checksum")] *)
Definition get_checksum (md : value) : result value :=
  match md with
  | VDict m => Ok (default VNone (m !! "checksum"))
  | VList _ => Raise (AttributeError "list" "get")
  | VStr _ => Raise (AttributeError "str" "get")
  | _ => Raise (TypeError "argument is not iterable")
  end.

(** [verify_integrity] *)
Definition verify_integrity (self : CoibiteCode) : result bool :=
  present ← contains_checksum (metadata self);
  if negb present then Ok true
  else
    expected ← get_checksum (metadata self);
    actual ← _calculate_checksum self;
    Ok (eq_str expected actual).

End WithLib.

(** What signing relies on: a signature verifies under the public key of
    the private key that made it. *)
Definition accepts_own_keys (L : Lib) : Prop :=
  forall (sk : PrivateKey) (k : Nonce) (data : string),
    ecdsa_verify (public_key sk) (ecdsa_sign sk k data) data = None.

End Coibite.

(* ===================================================================== *)
(** ** prime_generator.py *)
(* ===================================================================== *)

Module PrimeGen.

(** The world outside the program: the integers behind [secrets.randbits]
    and [random.randrange], and the readings of [time.time()]. *)
Record World := mkWorld {
  entropy : nat -> Z;
  clock : nat -> Q
}.

(** How much of the world a run has consumed. *)
Record Cursor := mkCursor {
  drawn : nat;
  ticks : nat
}.

(** A computation that reads the world. *)
Definition Run (A : Type) : Type := Cursor -> result (A * Cursor).

Definition ret {A} (a : A) : Run A := fun c => Ok (a, c).

Definition bind {A B} (m : Run A) (k : A -> Run B) : Run B :=
  fun c =>
    match m c with
    | Ok (a, c') => k a c'
    | Raise e => Raise e
    | Timeout => Timeout
    end.

Definition lift {A} (r : result A) : Run A :=
  fun c =>
    match r with
    | Ok a => Ok (a, c)
    | Raise e => Raise e
    | Timeout => Timeout
    end.

Definition raise {A} (e : exn) : Run A := fun _ => Raise e.
Definition timeout {A} : Run A := fun _ => Timeout.

Notation "'do' x <- m ; k" := (bind m (fun x => k))
  (at level 10, x name, m at level 100, k at level 200).
Notation "'do' ' pat <- m ; k" := (bind m (fun x => match x with pat => k end))
  (at level 10, pat pattern, m at level 100, k at level 200).

Section WithWorld.
Variable world : World.

(** [secrets.randbits(bits)]: an integer of [[0, 2^bits)]. *)
Definition randbits (bits : Z) : Run Z :=
  fun c => Ok (entropy world (drawn c) mod 2 ^ bits,
               {| drawn := S (drawn c); ticks := ticks c |}).

(** [random.randrange(a, b)]: an integer of [[a, b)]. *)
Definition randrange (a b : Z) : Run Z :=
  fun c => Ok (a + entropy world (drawn c) mod (b - a),
               {| drawn := S (drawn c); ticks := ticks c |}).

(** [time.time()] *)
Definition time : Run Q :=
  fun c => Ok (clock world (ticks c),
               {| drawn := drawn c; ticks := S (ticks c) |}).

(** *** Attribute lookup

    The names an instance resolves: those bound in the class body and those
    assigned in [__init__].  Names of the form [__name__] are left out; the
    code looks none of them up. *)
Definition ExtendedWheel_names : list string :=
  [ "WHEEL_BASIS"; "wheel_size"; "basis_primes"; "decimal_aware"; "spokes";
    "spoke_count"; "decimal_weights"; "_generate_spokes";
    "_compute_decimal_weights"; "generate_candidates"; "sieve";
    "_simple_sieve"; "_segmented_sieve"; "_get_small_primes"; "get_efficiency" ].

Definition DecimalRivers_names : list string :=
  [ "transition_matrix"; "digit_frequencies"; "prime_cache"; "analyze_primes";
    "_compile_analysis"; "get_river_score"; "optimize_candidates";
    "generate_statistics" ].

(** [getattr(obj, attr)] on an instance of [cls]: a name the instance does
    not resolve raises [AttributeError]. *)
Definition getattr (cls : string) (names : list string) (attr : string) : result unit :=
  if bool_decide (attr ∈ names) then Ok tt else Raise (AttributeError cls attr).

(** [rivers.attr(candidate)] for an instance of [DecimalRivers].  Of the
    names it resolves, [get_river_score] is the one callable with one
    integer; each of the others is not callable, takes no argument, or
    iterates over its argument. *)
Definition call_rivers (rivers : Rivers.DecimalRivers) (attr : string)
    (candidate : Z) : result value :=
  getattr "DecimalRivers" DecimalRivers_names attr;;
  if String.eqb attr "get_river_score"
  then Ok (VFloat (Rivers.get_river_score rivers candidate))
  else Raise (TypeError attr).

(** [wheel.attr(candidate)] for an instance of [ExtendedWheel]:
    [_get_small_primes] is the one name callable with one integer. *)
Definition call_wheel (wheel : Wheel.ExtendedWheel) (attr : string)
    (candidate : Z) : result value :=
  getattr "ExtendedWheel" ExtendedWheel_names attr;;
  if String.eqb attr "_get_small_primes"
  then Ok (VList (VInt <$> Wheel._get_small_primes candidate))
  else Raise (TypeError attr).

(** [wheel.attr] read as a value. *)
Definition read_wheel (wheel : Wheel.ExtendedWheel) (attr : string) : result value :=
  getattr "ExtendedWheel" ExtendedWheel_names attr;;
  Ok (if String.eqb attr "wheel_size" then VInt (Wheel.wheel_size wheel)
      else if String.eqb attr "basis_primes" then VList (VInt <$> Wheel.basis_primes wheel)
      else if String.eqb attr "decimal_aware" then VBool (Wheel.decimal_aware wheel)
      else if String.eqb attr "spokes" then VList (VInt <$> Wheel.spokes wheel)
      else if String.eqb attr "spoke_count" then VInt (Wheel.spoke_count wheel)
      else VObject attr).

(** [v < x] for a float [x]. *)
Definition lt_float (v : value) (x : Q) : result bool :=
  match v with
  | VFloat q => Ok (negb (Qle_bool x q))
  | VInt z => Ok (negb (Qle_bool x (inject_Z z)))
  | VBool b => Ok (negb (Qle_bool x (inject_Z (if b then 1 else 0))))
  | _ => Raise (TypeError "'<' not supported")
  end.

(** *** class PrimeGenerator *)

Record PrimeGenerator := mkGenerator {
  wheel : Wheel.ExtendedWheel;
  decimal_rivers : option Rivers.DecimalRivers;
  track_provenance : bool;
  miller_rabin_rounds : Z
}.

(** [PrimeGenerator.__init__] *)
Definition init (wheel_size : Z) (use_decimal_rivers track_provenance : bool)
    (miller_rabin_rounds : Z) : result PrimeGenerator :=
  wheel ← Wheel.init wheel_size true;
  Ok {| wheel := wheel;
        decimal_rivers := if use_decimal_rivers then Some Rivers.init else None;
        track_provenance := track_provenance;
        miller_rabin_rounds := miller_rabin_rounds |}.

(** The attribute lookup of the retry loop that comes first: on the
    [DecimalRivers] instance when there is one, on the wheel otherwise. *)
Definition missing (self : PrimeGenerator) : exn :=
  match decimal_rivers self with
  | Some _ => AttributeError "DecimalRivers" "calculate_prime_weight"
  | None => AttributeError "ExtendedWheel" "is_prime_wheel"
  end.

(** [_generate_candidate] *)
Definition _generate_candidate (bits : Z) : Run Z :=
  do candidate <- randbits bits;
  ret (Z.lor candidate (Z.lor (Z.shiftl 1 (bits - 1)) 1)).

(** [pow(a, e, n)] for a positive exponent, by squaring. *)
Fixpoint pow_mod (a : Z) (e : positive) (n : Z) : Z :=
  match e with
  | xH => a mod n
  | xO e' => let h := pow_mod a e' n in (h * h) mod n
  | xI e' => let h := pow_mod a e' n in ((h * h) mod n * a) mod n
  end.

(** [while d % 2 == 0: r += 1; d //= 2], from [r = 0] and [d]. *)
Fixpoint factor_twos (d : positive) : Z * positive :=
  match d with
  | xO d' => let '(r, d'') := factor_twos d' in (r + 1, d'')
  | _ => (0, d)
  end.

(** The inner [for _ in range(r - 1)] loop: whether it left by [break]. *)
Fixpoint squarings (k : nat) (x n : Z) : bool :=
  match k with
  | O => false
  | S k' =>
      let x := pow_mod x 2 n in
      if x =? n - 1 then true else squarings k' x n
  end.

(** The witness loop [for _ in range(rounds)]. *)
Fixpoint witness_loop (rounds : nat) (r : Z) (d : positive) (n : Z) : Run bool :=
  match rounds with
  | O => ret true
  | S rounds' =>
      do a <- randrange 2 (n - 1);
      let x := pow_mod a d n in
      if (x =? 1) || (x =? n - 1) then witness_loop rounds' r d n
      else if squarings (Z.to_nat (r - 1)) x n then witness_loop rounds' r d n
      else ret false
  end.

(** [_miller_rabin]; past the three tests [n - 1] is positive. *)
Definition _miller_rabin (n rounds : Z) : Run bool :=
  if n <? 2 then ret false
  else if (n =? 2) || (n =? 3) then ret true
  else if n mod 2 =? 0 then ret false
  else
    let '(r, d) := factor_twos (Z.to_pos (n - 1)) in
    witness_loop (Z.to_nat rounds) r d n.

(** [_generate_prime_internal]: the [while True] loop, [fuel] iterations
    of it at most. *)
Fixpoint _generate_prime_internal (fuel : nat) (self : PrimeGenerator) (bits : Z)
    : Run Z :=
  match fuel with
  | O => timeout
  | S fuel' =>
      do candidate <- _generate_candidate bits;
      do filtered <-
        match decimal_rivers self with
        | Some rivers =>
            do decimal_weight <-
              lift (call_rivers rivers "calculate_prime_weight" candidate);
            lift (lt_float decimal_weight 0.3)
        | None => ret false
        end;
      if filtered : bool then _generate_prime_internal fuel' self bits
      else
        do verdict <- lift (call_wheel (wheel self) "is_prime_wheel" candidate);
        if negb (truthy verdict) then _generate_prime_internal fuel' self bits
        else
          do probable <- _miller_rabin candidate (miller_rabin_rounds self);
          if probable : bool then ret candidate
          else _generate_prime_internal fuel' self bits
  end.

(** [generate_prime] *)
Definition generate_prime (fuel : nat) (self : PrimeGenerator) (bits : Z)
    : Run (Z * option Coibite.CoibiteCode) :=
  if bits <? 16 then raise (ValueError "Prime must be at least 16 bits")
  else
    do start_time <- time;
    do prime <- _generate_prime_internal fuel self bits;
    do stop_time <- time;
    let generation_time := (stop_time - start_time)%Q in
    if track_provenance self then
      do size <- lift (read_wheel (wheel self) "size");
      let metadata : gmap string value :=
        list_to_map
          [ ("bits", VInt bits);
            ("wheel_size", size);
            ("decimal_rivers_enabled",
               VBool (bool_decide (is_Some (decimal_rivers self))));
            ("miller_rabin_rounds", VInt (miller_rabin_rounds self));
            ("generation_time_seconds", VFloat generation_time) ] in
      do now <- time;
      ret (prime, Some (Coibite.new prime (VDict metadata) now))
    else ret (prime, None).

(** The [while q == p] loop of [generate_prime_pair]. *)
Fixpoint redraw (fuel : nat) (self : PrimeGenerator) (bits p q : Z)
    (coibite_q : option Coibite.CoibiteCode)
    : Run (Z * option Coibite.CoibiteCode) :=
  if q =? p then
    match fuel with
    | O => timeout
    | S fuel' =>
        do '(q', coibite_q') <- generate_prime fuel self bits;
        redraw fuel' self bits p q' coibite_q'
    end
  else ret (q, coibite_q).

(** [generate_prime_pair] *)
Definition generate_prime_pair (fuel : nat) (self : PrimeGenerator) (bits : Z)
    : Run (Z * Z * option Coibite.CoibiteCode * option Coibite.CoibiteCode) :=
  do '(p, coibite_p) <- generate_prime fuel self bits;
  do '(q, coibite_q) <- generate_prime fuel self bits;
  do '(q, coibite_q) <- redraw fuel self bits p q coibite_q;
  ret (p, q, coibite_p, coibite_q).

End WithWorld.

(** [get_statistics]: the values of the dictionary display are evaluated
    in order. *)
Definition get_statistics (self : PrimeGenerator) : result (gmap string value) :=
  wheel_size ← read_wheel (wheel self) "size";
  wheel_efficiency ← read_wheel (wheel self) "get_efficiency_metrics";
  Ok (list_to_map
        [ ("wheel_size", wheel_size);
          ("decimal_rivers_enabled", VBool (bool_decide (is_Some (decimal_rivers self))));
          ("provenance_tracking_enabled", VBool (track_provenance self));
          ("miller_rabin_rounds", VInt (miller_rabin_rounds self));
          ("wheel_efficiency", wheel_efficiency) ]).

End PrimeGen.

(* ===================================================================== *)
(** ** Predicates used to state properties *)
(* ===================================================================== *)

Module Predicates.

(** [is_prime[j]] holds, for an index of the flag array of
    [_get_small_primes]. *)
Definition flag (arr : list bool) (j : Z) : Prop :=
  default false (arr !! Z.to_nat j) = true.

(** What the flags say once every [i < m] has been processed. *)
Definition sieved (limit m : Z) (arr : list bool) : Prop :=
  forall j, 0 <= j <= limit ->
    (flag arr j <-> 2 <= j /\ forall d, 2 <= d < m -> (d | j) -> d = j).

(** Not a multiple of any basis prime. *)
Definition unsieved (basis : list Z) (x : Z) : Prop :=
  forall p, p ∈ basis -> x mod p <> 0.

(** The test of the marking pass of [_segmented_sieve]: [c % p == 0 and
    c != p]. *)
Definition proper_multiple (c p : Z) : bool := (c mod p =? 0) && negb (c =? p).

(** Start of the segment of [_segmented_sieve] that holds [x]: the
    segments of a range from [start] begin every 100001 integers. *)
Definition segment_start (start x : Z) : Z := start + (x - start) / 100001 * 100001.

(** The test of a pair of neighbours in the second loop of
    [analyze_primes], for the transition from digit [a] to digit [b]. *)
Definition transition (a b : Z) (pq : Z * Z) : bool :=
  (5 <? pq.1) && (5 <? pq.2) && (pq.1 mod 10 =? a) && (pq.2 mod 10 =? b).

End Predicates.

(* ===================================================================== *)
(** ** A small library instance and sample data *)
(* ===================================================================== *)

Module Sample.
Import Coibite.

(** Decimal digits to a natural number. *)
Fixpoint parse_digits (acc : Z) (s : string) : option Z :=
  match s with
  | EmptyString => Some acc
  | String ch rest =>
      let d := Z.of_N (Ascii.N_of_ascii ch) - 48 in
      if (0 <=? d) && (d <=? 9) then parse_digits (10 * acc + d) rest else None
  end.

Definition parse_int (s : string) : option Z :=
  match s with
  | EmptyString => None
  | String ch rest =>
      if (Ascii.N_of_ascii ch =? 45)%N then
        match rest with
        | EmptyString => None
        | _ => Z.opp <$> parse_digits 0 rest
        end
      else parse_digits 0 s
  end.

(** An implementation of [Coibite.Lib] small enough to run the definitions
    on examples: keys are strings, and a signature is the signed data
    followed by the key. *)
Definition lib : Lib :=
  {| json_dumps := fun v => match v with VObject _ => None | _ => Some "{}" end;
     json_loads := fun _ => None;
     b64encode := fun s => s;
     b64decode := fun s => Some s;
     sha256_hexdigest := fun s => "00112233445566778899aabbccddeeff" +:+ s;
     str_int := fun n => pretty n;
     int_str := parse_int;
     format := fun _ => "t";
     PrivateKey := string;
     PublicKey := string;
     public_key := fun sk => sk;
     Nonce := unit;
     ecdsa_sign := fun sk _ data => data +:+ sk;
     ecdsa_verify := fun pk sig data =>
       if String.eqb sig (data +:+ pk) then None else Some InvalidSignature |}.

(** A second implementation, for signatures: textbook DSA, the scheme of
    ECDSA over the integers modulo a prime instead of a curve, in the
    subgroup of order 11 that 2 generates modulo 23.  The hash of a message
    is its length; a signature is the two bytes [r] and [s]. *)
Definition dsa_p : Z := 23.
Definition dsa_q : Z := 11.
Definition dsa_g : Z := 2.

Definition dsa_hash (data : string) : Z := Z.of_nat (String.length data) mod dsa_q.

(** The inverse modulo [dsa_q]. *)
Definition dsa_inv (a : Z) : Z := a ^ (dsa_q - 2) mod dsa_q.

Definition dsa_sign (x k : Z) (data : string) : string :=
  let r := (dsa_g ^ k mod dsa_p) mod dsa_q in
  let s := (dsa_inv k * (dsa_hash data + x * r)) mod dsa_q in
  String (Ascii.ascii_of_N (Z.to_N r)) (String (Ascii.ascii_of_N (Z.to_N s)) "").

Definition dsa_verify (y : Z) (sig data : string) : option exn :=
  match sig with
  | String a (String b EmptyString) =>
      let r := Z.of_N (Ascii.N_of_ascii a) in
      let s := Z.of_N (Ascii.N_of_ascii b) in
      if (0 <? r) && (r <? dsa_q) && (0 <? s) && (s <? dsa_q) then
        let w := dsa_inv s in
        let u1 := (dsa_hash data * w) mod dsa_q in
        let u2 := (r * w) mod dsa_q in
        let v := ((dsa_g ^ u1 * y ^ u2) mod dsa_p) mod dsa_q in
        if v =? r then None else Some InvalidSignature
      else Some InvalidSignature
  | _ => Some InvalidSignature
  end.

Definition dsa : Lib :=
  {| json_dumps := json_dumps (Lib := lib);
     json_loads := json_loads (Lib := lib);
     b64encode := b64encode (Lib := lib);
     b64decode := b64decode (Lib := lib);
     sha256_hexdigest := sha256_hexdigest (Lib := lib);
     str_int := str_int (Lib := lib);
     int_str := int_str (Lib := lib);
     format := format (Lib := lib);
     PrivateKey := Z;
     PublicKey := Z;
     public_key := fun x => dsa_g ^ x mod dsa_p;
     Nonce := Z;
     ecdsa_sign := dsa_sign;
     ecdsa_verify := dsa_verify |}.

(** The spoke table of each supported wheel, checked by running
    [_generate_spokes]: the spokes are the residues of [1, wheel_size)
    coprime to the wheel size, and there are 2, 8, 48, 480 and 5760 of
    them. *)
Definition spokes_ok (size count : Z) : bool :=
  match Wheel.init size true with
  | Ok w =>
      (Wheel.spoke_count w =? count)
      && bool_decide
           (Wheel.spokes w = List.filter (fun i => Z.gcd i size =? 1) (range 1 size))
  | _ => false
  end.

Definition world : PrimeGen.World :=
  {| PrimeGen.entropy := fun n => 40503 + Z.of_nat n;
     PrimeGen.clock := fun n => inject_Z (Z.of_nat n) |}.

Definition start : PrimeGen.Cursor := {| PrimeGen.drawn := 0; PrimeGen.ticks := 0 |}.

End Sample.

(* ===================================================================== *)
(** ** Properties of the wheel *)
(* ===================================================================== *)

Module WheelFacts.
Import Wheel.

Lemma elem_of_count_from n a x : x ∈ count_from n a 1 <-> a <= x < a + Z.of_nat n.
Proof.
  revert a. induction n as [|n IH]; intros a; simpl count_from.
  - split; [intros H; inversion H | lia].
  - rewrite elem_of_cons, IH. lia.
Qed.

Lemma elem_of_range a b x : x ∈ range a b <-> a <= x < b.
Proof. unfold range. rewrite elem_of_count_from. lia. Qed.

Lemma spoke_loop_elem w start end_ current sp x :
  x ∈ (spoke_loop w start end_ current sp).1 ->
  exists spoke, spoke ∈ sp /\ x = current + spoke /\ start <= x <= end_.
Proof.
  induction sp as [|spoke rest IH]; simpl.
  - intros H. inversion H.
  - destruct ((start <=? current + spoke) && (current + spoke <=? end_)) eqn:Hin.
    + destruct (spoke_loop w start end_ current rest) as [out returned] eqn:Hrest.
      simpl in *. rewrite elem_of_app. intros [Hx | Hx].
      * destruct (good_profile w (current + spoke)); [|inversion Hx].
        apply list_elem_of_singleton in Hx. subst x.
        exists spoke. split; [left|]. lia.
      * destruct (IH Hx) as (s & Hs & Heq). exists s. split; [by right | done].
    + destruct (end_ <? current + spoke).
      * simpl. intros H. inversion H.
      * intros Hx. destruct (IH Hx) as (s & Hs & Heq).
        exists s. split; [by right | done].
Qed.

Lemma wheel_loop_elem fuel w start end_ current x :
  0 <= wheel_size w ->
  (forall s, s ∈ spokes w -> 1 <= s) ->
  x ∈ wheel_loop fuel w start end_ current ->
  current < x /\ start <= x <= end_.
Proof.
  intros Hsize Hspokes. revert current.
  induction fuel as [|fuel IH]; intros current; simpl.
  - intros H. inversion H.
  - destruct (current <=? end_); [|intros H; inversion H].
    destruct (spoke_loop w start end_ current (spokes w)) as [out returned] eqn:Hloop.
    assert (Hout : x ∈ out -> current < x /\ start <= x <= end_).
    { intros Hx. replace out with (spoke_loop w start end_ current (spokes w)).1 in Hx
        by (by rewrite Hloop).
      apply spoke_loop_elem in Hx as (s & Hs & -> & Hr).
      specialize (Hspokes s Hs). lia. }
    destruct returned; [done|].
    rewrite elem_of_app. intros [Hx | Hx]; [auto|].
    apply IH in Hx. lia.
Qed.

(** The fuel [generate_candidates] gives the loop is enough: more of it
    changes nothing. *)
Lemma wheel_loop_fuel w start end_ fuel1 fuel2 current :
  0 < wheel_size w ->
  (Z.to_nat (end_ - current + 1) <= fuel1)%nat ->
  (Z.to_nat (end_ - current + 1) <= fuel2)%nat ->
  wheel_loop fuel1 w start end_ current = wheel_loop fuel2 w start end_ current.
Proof.
  intros Hsize. revert fuel2 current.
  induction fuel1 as [|fuel1 IH]; intros fuel2 current H1 H2.
  - destruct fuel2 as [|fuel2]; [done|]. simpl.
    destruct (Z.leb_spec current end_); [lia | done].
  - destruct fuel2 as [|fuel2]; simpl.
    + destruct (Z.leb_spec current end_); [lia | done].
    + destruct (Z.leb_spec current end_); [|done].
      destruct (spoke_loop w start end_ current (spokes w)) as [out returned].
      destruct returned; [done|]. f_equal. apply IH; lia.
Qed.

(** Likewise for the segments of [_segmented_sieve]. *)
Lemma segment_loop_fuel w small_primes end_ segment_size fuel1 fuel2 current :
  0 <= segment_size ->
  (Z.to_nat (end_ - current + 1) <= fuel1)%nat ->
  (Z.to_nat (end_ - current + 1) <= fuel2)%nat ->
  segment_loop fuel1 w small_primes end_ segment_size current
  = segment_loop fuel2 w small_primes end_ segment_size current.
Proof.
  intros Hsize. revert fuel2 current.
  induction fuel1 as [|fuel1 IH]; intros fuel2 current H1 H2.
  - destruct fuel2 as [|fuel2]; [done|]. simpl.
    destruct (Z.leb_spec current end_); [lia | done].
  - destruct fuel2 as [|fuel2]; simpl.
    + destruct (Z.leb_spec current end_); [lia | done].
    + destruct (Z.leb_spec current end_); [|done].
      f_equal. apply IH; lia.
Qed.

Lemma basis_lookup size basis :
  WHEEL_BASIS !! size = Some basis ->
  (size, basis) ∈
    [ (6, [2; 3]); (30, [2; 3; 5]); (210, [2; 3; 5; 7]);
      (2310, [2; 3; 5; 7; 11]); (30030, [2; 3; 5; 7; 11; 13]) ].
Proof. intros H. by apply elem_of_list_to_map_2 in H. Qed.

Lemma wheel_init_inv size aware w :
  init size aware = Ok w ->
  wheel_size w = size /\ 0 < wheel_size w /\
  decimal_aware w = aware /\
  WHEEL_BASIS !! size = Some (basis_primes w) /\
  forall s, s ∈ spokes w -> 1 <= s < wheel_size w.
Proof.
  unfold init. destruct (WHEEL_BASIS !! size) as [basis|] eqn:Hb; [|done].
  intros [= <-]. simpl. repeat split; try done.
  - apply basis_lookup in Hb.
    repeat (apply elem_of_cons in Hb as [[= -> _] | Hb]; [lia|]). inversion Hb.
  - apply list_elem_of_In, filter_In in H as [H _].
    apply list_elem_of_In, elem_of_range in H. lia.
  - apply list_elem_of_In, filter_In in H as [H _].
    apply list_elem_of_In, elem_of_range in H. lia.
Qed.

(** Every candidate is a basis prime or lies above the first wheel
    boundary at or after [start]. *)
Lemma generate_candidates_elem size aware w start end_ x :
  init size aware = Ok w ->
  x ∈ generate_candidates w start end_ ->
  x ∈ basis_primes w \/ wheel_start w start < x.
Proof.
  intros Hinit. destruct (wheel_init_inv _ _ _ Hinit) as (_ & Hpos & _ & _ & Hsp).
  unfold generate_candidates. rewrite elem_of_app. intros [Hx | Hx].
  - left. apply list_elem_of_In, filter_In in Hx as [Hx _]. by apply list_elem_of_In.
  - right. apply wheel_loop_elem in Hx; [lia | lia |].
    intros s Hs. specialize (Hsp s Hs). lia.
Qed.

End WheelFacts.

Module WheelClaims.
Import Wheel WheelFacts.

Lemma prime_7 : prime 7.
Proof.
  apply prime_intro; [lia|]. intros n Hn.
  assert (Hcases : n = 1 \/ n = 2 \/ n = 3 \/ n = 4 \/ n = 5 \/ n = 6) by lia.
  apply Zgcd_1_rel_prime.
  destruct Hcases as [-> | [-> | [-> | [-> | [-> | ->]]]]]; reflexivity.
Qed.

(** C8: the module-level [is_prime_wheel] accepts a composite.  With the
    default wheel of size 30, [is_prime_wheel(49)] returns [True] although
    49 = 7 * 7: the trial divisors are [generate_candidates(2, 8)], which
    are the basis primes 2, 3, 5 only, because no candidate other than a
    basis prime is emitted below the first wheel boundary
    [((start - 1) // wheel_size + 1) * wheel_size]. *)
Theorem is_prime_wheel_accepts_49 :
  is_prime_wheel 49 30 = Ok true /\
  49 = 7 * 7 /\
  (w ← init 30 true; Ok (generate_candidates w 2 (int_sqrt 49 + 1))) = Ok [2; 3; 5] /\
  forall size aware w start end_ x,
    init size aware = Ok w ->
    x ∈ generate_candidates w start end_ ->
    x <= wheel_start w start ->
    x ∈ basis_primes w.
Proof.
  split; [by vm_compute|]. split; [done|]. split; [by vm_compute|].
  intros size aware w start end_ x Hinit Hx Hlt.
  destruct (generate_candidates_elem _ _ _ _ _ _ Hinit Hx); [done | lia].
Qed.

Lemma is_prime_wheel_accepts_49_witness :
  exists w, init 30 true = Ok w /\ 5 ∈ basis_primes w.
Proof.
  eexists. split; [reflexivity|].
  apply (proj2 (proj2 (proj2 is_prime_wheel_accepts_49)) 30 true _ 2 8 5 eq_refl).
  - vm_compute. do 2 apply list_elem_of_further. apply list_elem_of_here.
  - vm_compute. discriminate.
Defined.

(** C6 at a failing input: for a wheel of size 210,
    [generate_candidates(200, 230)] emits 211, 221, 223, 227, 229 and so
    misses 209 = 11 * 19, an integer of the range that is coprime to 2, 3,
    5 and 7: the wheel loop starts at the first multiple of the wheel size
    at or after [start], here 210, and what it emits are the coprime
    integers from 210 on.  (213, 217 and 219, which the spec's list names,
    are multiples of 3 or 7 and are rightly not emitted.) *)
Theorem candidates_210_misses_209 :
  forall aware,
    exists w, init 210 aware = Ok w /\
      generate_candidates w 200 230 = [211; 221; 223; 227; 229] /\
      (200 <= 209 <= 230 /\ Z.gcd 209 210 = 1 /\
       209 ∉ generate_candidates w 200 230) /\
      wheel_start w 200 = 210 /\
      (forall x, x ∈ generate_candidates w 200 230 <->
                 210 <= x <= 230 /\ Z.gcd x 210 = 1) /\
      (213 mod 3 = 0 /\ 217 mod 7 = 0 /\ 219 mod 3 = 0).
Proof.
  intros aware.
  assert (Hgen : exists w, init 210 aware = Ok w /\
            generate_candidates w 200 230 = [211; 221; 223; 227; 229] /\
            wheel_start w 200 = 210).
  { destruct aware; eexists; (split; [reflexivity | split; by vm_compute]). }
  destruct Hgen as (w & Hinit & Hgen & Hws). exists w. rewrite Hgen.
  split; [done|]. split; [done|]. split.
  { split; [lia|]. split; [reflexivity|]. intros Hin.
    repeat (apply elem_of_cons in Hin as [Hin | Hin]; [discriminate Hin|]).
    inversion Hin. }
  split; [done|]. split; [|done].
  intros x. split.
  - intros Hx.
    repeat (apply elem_of_cons in Hx as [-> | Hx]; [split; [lia | reflexivity]|]).
    inversion Hx.
  - intros [Hr Hg].
    assert (Hk : exists k : nat, (k < 21)%nat /\ x = 210 + Z.of_nat k).
    { exists (Z.to_nat (x - 210)). lia. }
    destruct Hk as (k & Hk & ->).
    do 21 (destruct k as [|k];
      [vm_compute in Hg;
       first [ discriminate Hg
             | vm_compute;
               repeat first [apply list_elem_of_here | apply list_elem_of_further] ]|]).
    lia.
Qed.

(** C7 at a failing input: with the wheel of size 30, [sieve(2, 50)]
    returns 2, 3, 5, 31, 37, 41, 43, 47 and so misses the prime 7 (and 11
    up to 29); the segmented path misses the same primes on [2, 100]. *)
Theorem sieve_2_50_misses_primes :
  (w ← init 30 true; Ok (sieve w 2 50)) = Ok [2; 3; 5; 31; 37; 41; 43; 47] /\
  (w ← init 30 true; Ok (_segmented_sieve w 2 100))
    = Ok [2; 3; 5; 31; 37; 41; 43; 47; 53; 59; 61; 67; 71; 73; 79; 83; 89; 97] /\
  prime 7 /\ 2 <= 7 <= 50.
Proof.
  split; [by vm_compute|]. split; [by vm_compute|]. split; [apply prime_7 | lia].
Qed.

End WheelClaims.

(* ===================================================================== *)
(** ** Properties of the decimal rivers score *)
(* ===================================================================== *)

Module RiversFacts.
Import Rivers.

Lemma incr_counted k freq : counted freq -> counted (incr k freq).
Proof.
  intros Hc. unfold incr. apply map_Forall_insert_2; [|done].
  destruct (freq !! k) as [v|] eqn:Hk; simpl; [|lia].
  specialize (Hc k v Hk). simpl in Hc. lia.
Qed.

Lemma count_endings_counted primes freq :
  counted freq -> counted (count_endings primes freq).
Proof.
  unfold count_endings. revert freq.
  induction primes as [|p primes IH]; intros freq Hc; simpl; [done|].
  apply IH. destruct (5 <? p); [by apply incr_counted | done].
Qed.

Lemma reachable_counted self : reachable self -> counted (digit_frequencies self).
Proof.
  induction 1 as [|self primes _ IH]; simpl.
  - apply map_Forall_empty.
  - by apply count_endings_counted.
Qed.

Lemma total_insert k v (m : gmap Z Z) :
  m !! k = None -> total (<[k := v]> m) = v + total m.
Proof.
  intros Hk. unfold total. apply map_fold_insert_L; [|done]. intros. lia.
Qed.

Lemma total_bounds (m : gmap Z Z) :
  counted m ->
  0 <= total m /\
  (forall k v, m !! k = Some v -> v <= total m) /\
  (m <> ∅ -> 0 < total m).
Proof.
  induction m as [|k v m Hk IH] using map_ind; intros Hc.
  - unfold total. rewrite map_fold_empty. split; [lia|]. split; [|done].
    intros k v Hk. by rewrite lookup_empty in Hk.
  - apply map_Forall_insert in Hc as [Hv Hc]; [|done]. simpl in Hv.
    destruct (IH Hc) as (H0 & Hle & _). rewrite total_insert by done.
    split; [lia|]. split; [|lia].
    intros k' v' Hk'. destruct (decide (k = k')) as [<-|Hne].
    + rewrite lookup_insert_eq in Hk'. injection Hk' as <-. lia.
    + rewrite lookup_insert_ne in Hk' by done. specialize (Hle k' v' Hk'). lia.
Qed.

Lemma quotient_unit (freq total : Z) :
  0 <= freq <= total -> 0 < total ->
  (0 <= inject_Z freq / inject_Z total <= 1)%Q.
Proof.
  intros Hf Ht.
  assert (Htq : (0 < inject_Z total)%Q) by (unfold Qlt; simpl; lia).
  split.
  - apply Qle_shift_div_l; [done|]. unfold Qle. simpl. lia.
  - apply Qle_shift_div_r; [done|]. unfold Qle. simpl. lia.
Qed.

(** C10: the score of a candidate, on an instance created by [__init__]
    and fed by [analyze_primes]: it lies in [0, 1]; it is 0 when the last
    digit is not 1, 3, 7 or 9, whatever was observed; for such a digit it
    is 0.5 when no digit frequency has been observed, and
    frequency[last digit] / total observations otherwise. *)
Theorem river_score_spec self candidate :
  reachable self ->
  let score := get_river_score self candidate in
  let last_digit := candidate mod 10 in
  let freq := digit_frequencies self in
  (0 <= score <= 1)%Q /\
  (last_digit ∉ [1; 3; 7; 9] -> (score == 0)%Q) /\
  (last_digit ∈ [1; 3; 7; 9] -> freq = ∅ -> (score == 1 # 2)%Q) /\
  (last_digit ∈ [1; 3; 7; 9] -> freq <> ∅ ->
     0 < total freq /\
     (score == inject_Z (default 0%Z (freq !! last_digit)) / inject_Z (total freq))%Q).
Proof.
  intros Hreach. apply reachable_counted in Hreach as Hc.
  destruct (total_bounds _ Hc) as (Htot0 & Hle & Hpos).
  cbv zeta. unfold get_river_score.
  destruct (decide (candidate mod 10 ∈ [1; 3; 7; 9])) as [Hd | Hd].
  - rewrite (bool_decide_eq_true_2 _ Hd). simpl.
    destruct (decide (digit_frequencies self = ∅)) as [He | He].
    + rewrite (bool_decide_eq_true_2 _ He).
      split; [split; discriminate|]. split; [done|]. split; [done|]. done.
    + rewrite (bool_decide_eq_false_2 _ He). specialize (Hpos He).
      destruct (Z.ltb_spec 0 (total (digit_frequencies self))); [|lia].
      split.
      * apply quotient_unit; [|done].
        destruct (digit_frequencies self !! (candidate mod 10)) as [v|] eqn:Hv; simpl.
        -- specialize (Hc _ _ Hv). specialize (Hle _ _ Hv). simpl in Hc. lia.
        -- lia.
      * split; [done|]. split; [done|]. intros _ _. split; [done | reflexivity].
  - rewrite (bool_decide_eq_false_2 _ Hd). simpl.
    split; [split; discriminate|]. split; [done|]. split; done.
Qed.

Lemma river_score_spec_witness :
  (0 <= get_river_score
          (analyze_primes init [7; 11; 13; 17; 19; 23; 29; 31]%Z) 41%Z <= 1)%Q.
Proof.
  apply (river_score_spec (analyze_primes init [7; 11; 13; 17; 19; 23; 29; 31]) 41).
  apply reach_analyze, reach_init.
Defined.

End RiversFacts.

(* ===================================================================== *)
(** ** Properties of the prime generator *)
(* ===================================================================== *)

Module PrimeGenFacts.
Import PrimeGen.

Lemma bind_ok {A B} (m : Run A) (k : A -> Run B) c a c' :
  m c = Ok (a, c') -> bind m k c = k a c'.
Proof. unfold bind. by intros ->. Qed.

Lemma bind_raise {A B} (m : Run A) (k : A -> Run B) c e :
  m c = Raise e -> bind m k c = Raise e.
Proof. unfold bind. by intros ->. Qed.

Lemma calculate_prime_weight_unresolved rivers candidate :
  call_rivers rivers "calculate_prime_weight" candidate
  = Raise (AttributeError "DecimalRivers" "calculate_prime_weight").
Proof. reflexivity. Qed.

Lemma is_prime_wheel_unresolved wheel candidate :
  call_wheel wheel "is_prime_wheel" candidate
  = Raise (AttributeError "ExtendedWheel" "is_prime_wheel").
Proof. reflexivity. Qed.

Lemma size_unresolved wheel :
  read_wheel wheel "size" = Raise (AttributeError "ExtendedWheel" "size").
Proof. reflexivity. Qed.

(** The first iteration of the retry loop raises. *)
Lemma internal_raises world fuel self bits c :
  _generate_prime_internal world (S fuel) self bits c = Raise (missing self).
Proof.
  unfold missing. simpl. erewrite bind_ok by reflexivity.
  destruct (decimal_rivers self) as [rivers|].
  - apply bind_raise, bind_raise.
    by rewrite calculate_prime_weight_unresolved.
  - erewrite bind_ok by reflexivity. simpl. apply bind_raise.
    by rewrite is_prime_wheel_unresolved.
Qed.

Lemma generate_prime_raises world fuel self bits c :
  16 <= bits ->
  generate_prime world (S fuel) self bits c = Raise (missing self).
Proof.
  intros Hbits. unfold generate_prime.
  destruct (Z.ltb_spec bits 16); [lia|].
  erewrite bind_ok by reflexivity. apply bind_raise, internal_raises.
Qed.

Lemma generate_prime_pair_raises world fuel self bits c :
  16 <= bits ->
  generate_prime_pair world (S fuel) self bits c = Raise (missing self).
Proof.
  intros Hbits. unfold generate_prime_pair.
  by apply bind_raise, generate_prime_raises.
Qed.

Lemma generator_init_inv wheel_size use_decimal_rivers track rounds self :
  init wheel_size use_decimal_rivers track rounds = Ok self ->
  decimal_rivers self = (if use_decimal_rivers then Some Rivers.init else None) /\
  track_provenance self = track /\ miller_rabin_rounds self = rounds.
Proof.
  unfold init. destruct (Wheel.init wheel_size true) as [w| |]; simpl; [|done|done].
  by intros [= <-].
Qed.

Lemma generator_init_ok wheel_size basis use_decimal_rivers track rounds :
  Wheel.WHEEL_BASIS !! wheel_size = Some basis ->
  exists self, init wheel_size use_decimal_rivers track rounds = Ok self.
Proof.
  intros Hb. unfold init, Wheel.init. rewrite Hb. simpl. by eexists.
Qed.

Lemma generate_prime_not_ok world fuel self bits c result :
  16 <= bits -> generate_prime world fuel self bits c <> Ok result.
Proof.
  intros Hbits. destruct fuel as [|fuel].
  - unfold generate_prime. destruct (Z.ltb_spec bits 16); [lia|].
    erewrite bind_ok by reflexivity. unfold bind. simpl. done.
  - by rewrite generate_prime_raises.
Qed.

(** C1: for every bit length of at least 16 and every configuration the
    constructor accepts, [generate_prime] does not return: as soon as the
    retry loop runs its first iteration it raises [AttributeError], for
    [calculate_prime_weight] on the [DecimalRivers] instance when decimal
    rivers are enabled and for [is_prime_wheel] on the [ExtendedWheel]
    instance otherwise, whatever the random source and the clock give.
    [DecimalRivers] binds [get_river_score] but not
    [calculate_prime_weight], and [ExtendedWheel] does not bind
    [is_prime_wheel]. *)
Theorem generate_prime_never_returns
    world wheel_size use_decimal_rivers track rounds self bits fuel c :
  16 <= bits ->
  init wheel_size use_decimal_rivers track rounds = Ok self ->
  generate_prime world (S fuel) self bits c
  = Raise (if use_decimal_rivers
           then AttributeError "DecimalRivers" "calculate_prime_weight"
           else AttributeError "ExtendedWheel" "is_prime_wheel") /\
  (forall fuel' result, generate_prime world fuel' self bits c <> Ok result) /\
  "calculate_prime_weight" ∉ DecimalRivers_names /\
  "get_river_score" ∈ DecimalRivers_names /\
  "is_prime_wheel" ∉ ExtendedWheel_names.
Proof.
  intros Hbits Hinit. split; [|split].
  - rewrite generate_prime_raises by done.
    apply generator_init_inv in Hinit as (Hr & _). unfold missing. rewrite Hr.
    by destruct use_decimal_rivers.
  - intros fuel' result. by apply generate_prime_not_ok.
  - split; [intros H; apply (bool_decide_pack _) in H; by vm_compute in H|].
    split; [apply (bool_decide_unpack _); by vm_compute|].
    intros H. apply (bool_decide_pack _) in H. by vm_compute in H.
Qed.

Lemma generate_prime_never_returns_witness :
  exists self,
    init 30 false true 64 = Ok self /\
    generate_prime Sample.world 1 self 16 Sample.start
    = Raise (AttributeError "ExtendedWheel" "is_prime_wheel").
Proof.
  eexists. split; [reflexivity|].
  apply (proj1 (generate_prime_never_returns
                  Sample.world 30 false true 64 _ 16 0 Sample.start
                  ltac:(lia) eq_refl)).
Defined.

(** C2 at a failing input: the default generator asked for a 16-bit prime
    raises [AttributeError] instead of returning a value. *)
Theorem generate_prime_default_16 world fuel c :
  (self ← init 30030 true true 64; generate_prime world (S fuel) self 16 c)
  = Raise (AttributeError "DecimalRivers" "calculate_prime_weight").
Proof.
  destruct (generator_init_ok 30030 [2; 3; 5; 7; 11; 13] true true 64 eq_refl) as [self Hself].
  rewrite Hself. simpl. rewrite generate_prime_raises by lia.
  apply generator_init_inv in Hself as (Hr & _). unfold missing. by rewrite Hr.
Qed.

(** C3 at a failing input: the default generator asked for a pair of
    16-bit primes raises [AttributeError] in the first call of
    [generate_prime] instead of returning two values. *)
Theorem generate_prime_pair_default_16 world fuel c :
  (self ← init 30030 true true 64; generate_prime_pair world (S fuel) self 16 c)
  = Raise (AttributeError "DecimalRivers" "calculate_prime_weight").
Proof.
  destruct (generator_init_ok 30030 [2; 3; 5; 7; 11; 13] true true 64 eq_refl) as [self Hself].
  rewrite Hself. simpl. rewrite generate_prime_pair_raises by lia.
  apply generator_init_inv in Hself as (Hr & _). unfold missing. by rewrite Hr.
Qed.

End PrimeGenFacts.

(* ===================================================================== *)
(** ** Properties of the provenance codes *)
(* ===================================================================== *)

Module CoibiteFacts.
Import Coibite.

Lemma append_inj_r (s a b : string) : s +:+ a = s +:+ b -> a = b.
Proof. induction s as [|ch s IH]; simpl; [done|]. intros [= H]. auto. Qed.

Section WithLib.
Context `{L : Lib}.

Lemma dumps_returns v : dumps v <> Timeout.
Proof. unfold dumps. by destruct (json_dumps v). Qed.

Lemma sign_inv self sk k signed :
  sign self sk k = Ok signed ->
  exists data, _get_signing_data self = Ok data /\
    _get_signing_data signed = Ok data /\
    signature signed = Some (ecdsa_sign sk k data).
Proof.
  unfold sign. destruct (_get_signing_data self) as [data| |] eqn:Hd; simpl; [|done|done].
  intros [= <-]. exists data. split; [done|]. split; [|done].
  unfold _get_signing_data, _hash_prime in *. simpl. done.
Qed.

(** A dictionary survives [metadata or {}] unchanged. *)
Lemma dict_or_empty (m : gmap string value) :
  (if truthy (VDict m) then VDict m else VDict ∅) = VDict m.
Proof.
  simpl. destruct (map_to_list m) eqn:Hm; [|done].
  apply map_to_list_empty_iff in Hm. by subst.
Qed.

Lemma encode_data_inv self include data :
  encode_data self include = Ok data ->
  exists checksum, _calculate_checksum self = Ok checksum /\
    data !! "version" = Some (VStr VERSION) /\
    data !! "timestamp" = Some (timestamp self) /\
    data !! "metadata" = Some (metadata self) /\
    data !! "checksum" = Some (VStr checksum) /\
    data !! "prime" =
      (if include then Some (VStr (str_int (prime self))) else None) /\
    data !! "signature" = (fun s => VStr (b64encode s)) <$> has_signature self.
Proof.
  unfold encode_data.
  destruct (_calculate_checksum self) as [checksum| |]; simpl; [|done|done].
  intros [= <-]. exists checksum. split; [done|].
  destruct include, (has_signature self); simpl; by simplify_map_eq.
Qed.

End WithLib.

(** C9 as the spec words it does not hold: [verify] hands the decision to
    the library, and a signature can verify under a public key other than
    the one of the signing key.  With textbook DSA on a small group, the
    record signed with the private key 3 and the nonce 1 verifies under
    the public key of 3 and also under the public key of 5, which is
    another key. *)
Lemma verify_foreign_key_counterexample :
  exists signed,
    sign (L := Sample.dsa) (new 65537 (VDict {["bits" := VInt 17]}) 1%Q) 3 1 = Ok signed /\
    public_key (Lib := Sample.dsa) 5 <> public_key (Lib := Sample.dsa) 3 /\
    verify (L := Sample.dsa) signed (public_key (Lib := Sample.dsa) 3) = Ok true /\
    verify (L := Sample.dsa) signed (public_key (Lib := Sample.dsa) 5) = Ok true.
Proof.
  eexists. split; [reflexivity|]. split; [by vm_compute|]. split; by vm_compute.
Qed.

(** C9, amended: [verify] always returns a boolean and never raises.  It
    returns [False] for a record without signature (in particular a new
    one) and when the signing payload cannot be computed; otherwise its
    answer is the library's verdict, [True] when the library's
    verification returns and [False] when it raises.  So under a public
    key other than the one of the signing key it returns [False] exactly
    when the signature is empty or the library rejects the signature under
    that key. *)
Theorem verify_returns_boolean (L : Lib) (self : CoibiteCode) (pk : PublicKey) :
  (exists b, verify self pk = Ok b) /\
  (has_signature self = None -> verify self pk = Ok false) /\
  (forall prime metadata now, verify (new prime metadata now) pk = Ok false) /\
  (forall e, _get_signing_data self = Raise e -> verify self pk = Ok false) /\
  (forall sig data,
     has_signature self = Some sig -> _get_signing_data self = Ok data ->
     verify self pk
     = Ok (match ecdsa_verify pk sig data with None => true | Some _ => false end)) /\
  (forall sk k signed data,
     sign self sk k = Ok signed -> _get_signing_data self = Ok data ->
     verify signed pk = Ok false <->
     ecdsa_sign sk k data = "" \/ ecdsa_verify pk (ecdsa_sign sk k data) data <> None).
Proof.
  split_and!.
  - unfold verify. destruct (has_signature self) as [sig|]; [|by eexists].
    pose proof (dumps_returns (L:=L)) as Hd. unfold _get_signing_data.
    destruct (dumps _) as [data| |] eqn:Hdata; [|by eexists|by destruct (Hd _ Hdata)].
    destruct (ecdsa_verify pk sig data); by eexists.
  - unfold verify. by intros ->.
  - done.
  - intros e He. unfold verify. rewrite He. by destruct (has_signature self).
  - intros sig data Hs Hd. unfold verify. rewrite Hs, Hd.
    by destruct (ecdsa_verify pk sig data).
  - intros sk k signed data Hsign Hdata.
    apply sign_inv in Hsign as (data' & Hd1 & Hd & Hsig).
    rewrite Hdata in Hd1. injection Hd1 as <-.
    unfold verify, has_signature. rewrite Hsig, Hd.
    destruct (String.eqb_spec (ecdsa_sign sk k data) "") as [Hempty | Hfull].
    { split; [by left | done]. }
    destruct (ecdsa_verify pk (ecdsa_sign sk k data) data) as [e|]; split.
    + intros _. by right.
    + done.
    + done.
    + intros [? | ?]; done.
Qed.

Lemma verify_returns_boolean_witness :
  exists signed,
    sign (L := Sample.lib) (new 65537 (VDict {["bits" := VInt 17]}) 1%Q) "alice" tt
      = Ok signed /\
    verify (L := Sample.lib) signed "bob" = Ok false.
Proof.
  eexists. split; [reflexivity|].
  apply (proj2 (proj2 (proj2 (proj2 (proj2
           (verify_returns_boolean Sample.lib
              (new 65537 (VDict {["bits" := VInt 17]}) 1%Q) "bob")))))
           "alice" tt _ "{}" eq_refl eq_refl).
  right. by vm_compute.
Defined.

End CoibiteFacts.

Module CoibiteClaims.
Import Coibite CoibiteFacts.

(** What [decode] makes of the dictionary of a token. *)
Lemma decode_data_fields (L : Lib) (d : gmap string value) ts md :
  d !! "version" = Some (VStr VERSION) ->
  d !! "timestamp" = Some ts ->
  d !! "metadata" = Some md ->
  d !! "prime" = None ->
  d !! "signature" = None ->
  decode_data (VDict d)
  = Ok {| prime := 0; timestamp := ts;
          metadata := if truthy md then md else VDict ∅;
          signature := None |}.
Proof.
  intros Hv Ht Hm Hp Hs. unfold decode_data.
  rewrite Hv, Hp, Ht, Hm, Hs. simpl. done.
Qed.

(** [verify_integrity] compares nothing when the metadata has no key
    ["checksum"]. *)
Lemma verify_integrity_no_key (L : Lib) self (m : gmap string value) :
  metadata self = VDict m -> m !! "checksum" = None ->
  verify_integrity self = Ok true.
Proof.
  intros Hm Hk. unfold verify_integrity. rewrite Hm. simpl. rewrite Hk.
  rewrite bool_decide_eq_false_2; [done|]. by intros [? ?].
Qed.

(** C4 at failing inputs: take the token of any unsigned record, encoded
    without the prime, and replace its metadata by any dictionary that has
    no key ["checksum"].  The token still carries the checksum of the
    original, it decodes, and [verify_integrity] on the decoded record
    returns [True]: the altered metadata passes. *)
Theorem tampered_metadata_passes (L : Lib) self data (altered : gmap string value) :
  encode_data self false = Ok data ->
  has_signature self = None ->
  altered !! "checksum" = None ->
  let tampered := <["metadata" := VDict altered]> data in
  tampered !! "checksum" = data !! "checksum" /\
  exists decoded,
    decode_data (VDict tampered) = Ok decoded /\
    metadata decoded = VDict altered /\
    verify_integrity decoded = Ok true.
Proof.
  intros Henc Hsig Hkey tampered. subst tampered.
  apply encode_data_inv in Henc as (checksum & _ & Hv & Ht & _ & _ & Hp & Hs).
  rewrite Hsig in Hs. simpl in Hs.
  split; [by rewrite lookup_insert_ne|].
  eexists. split.
  - apply decode_data_fields with (md := VDict altered);
      rewrite ?lookup_insert_eq, ?lookup_insert_ne by done; done.
  - rewrite dict_or_empty. split; [done|].
    by apply verify_integrity_no_key with (m := altered).
Qed.

Lemma tampered_metadata_passes_witness :
  exists data,
    encode_data (L := Sample.lib) (new 7 (VDict {["bits" := VInt 16]}) 1%Q) false
      = Ok data /\
    let tampered := <["metadata" := VDict {["bits" := VInt 17]}]> data in
    tampered !! "checksum" = data !! "checksum" /\
    exists decoded,
      decode_data (L := Sample.lib) (VDict tampered) = Ok decoded /\
      metadata decoded = VDict {["bits" := VInt 17]} /\
      verify_integrity (L := Sample.lib) decoded = Ok true.
Proof.
  eexists. split; [reflexivity|].
  apply (tampered_metadata_passes Sample.lib
           (new 7 (VDict {["bits" := VInt 16]}) 1%Q)); reflexivity.
Defined.

(** C5 at failing inputs: a record whose metadata has the key
    ["checksum"] bound to the integer 1.  Encoded and decoded again, the
    record has the same timestamp, metadata and (absent) signature, but
    [verify_integrity] on it returns [False]: it compares that metadata
    entry, not the checksum of the token, with the recomputed checksum. *)
Theorem checksum_key_fails_integrity (L : Lib) p now data :
  encode_data (new p (VDict {["checksum" := VInt 1]}) now) false = Ok data ->
  exists decoded,
    decode_data (VDict data) = Ok decoded /\
    timestamp decoded = VFloat now /\
    metadata decoded = VDict {["checksum" := VInt 1]} /\
    signature decoded = None /\
    verify_integrity decoded = Ok false.
Proof.
  intros Henc. unfold new in Henc. rewrite dict_or_empty in Henc.
  apply encode_data_inv in Henc as (checksum & Hc & Hv & Ht & Hm & _ & Hp & Hs).
  simpl in *. eexists. split; [by apply decode_data_fields|].
  rewrite dict_or_empty. simpl. repeat split.
  unfold verify_integrity. simpl. rewrite lookup_singleton_eq.
  rewrite bool_decide_eq_true_2 by by eexists. simpl.
  unfold _calculate_checksum in *. simpl in *.
  destruct (dumps (VDict {["checksum" := VInt 1]})) as [s| |]; simpl in *; done.
Qed.

Lemma checksum_key_fails_integrity_witness :
  exists data,
    encode_data (L := Sample.lib) (new 7 (VDict {["checksum" := VInt 1]}) 1%Q) false
      = Ok data /\
    exists decoded,
      decode_data (L := Sample.lib) (VDict data) = Ok decoded /\
      timestamp decoded = VFloat 1%Q /\
      metadata decoded = VDict {["checksum" := VInt 1]} /\
      signature decoded = None /\
      verify_integrity (L := Sample.lib) decoded = Ok false.
Proof.
  eexists. split; [reflexivity|].
  apply (checksum_key_fails_integrity Sample.lib 7 1%Q). reflexivity.
Defined.

End CoibiteClaims.

(* ===================================================================== *)
(** ** Further properties *)
(* ===================================================================== *)

Module PrimeGenMore.
Import PrimeGen.

(** X3: the candidate drawn for [bits] bits has its top and bottom bit set:
    it is odd and its bit length is exactly [bits]. *)
Theorem candidate_shape world bits c :
  1 <= bits ->
  exists candidate c',
    _generate_candidate world bits c = Ok (candidate, c') /\
    2 ^ (bits - 1) <= candidate < 2 ^ bits /\
    Z.odd candidate = true /\
    Coibite.bit_length candidate = bits.
Proof.
  intros Hbits. unfold _generate_candidate, bind, randbits, ret.
  eexists _, _. split; [reflexivity|].
  set (r := entropy world (drawn c) mod 2 ^ bits).
  assert (Hr : 0 <= r < 2 ^ bits) by (apply Z.mod_pos_bound; lia).
  rewrite Z.shiftl_1_l.
  set (m := Z.lor (2 ^ (bits - 1)) 1).
  assert (Hm0 : 0 <= m) by (apply Z.lor_nonneg; lia).
  assert (Hmlog : Z.log2 m = bits - 1).
  { unfold m. rewrite Z.log2_lor by lia. rewrite Z.log2_pow2 by lia.
    change (Z.log2 1) with 0. lia. }
  assert (Hrlog : Z.log2 r < bits).
  { destruct (Z.eq_dec r 0) as [-> | Hne]; [simpl; lia|].
    apply Z.log2_lt_pow2; lia. }
  assert (Hlog : Z.log2 (Z.lor r m) = bits - 1).
  { rewrite Z.log2_lor by lia. lia. }
  assert (Hodd : Z.odd (Z.lor r m) = true).
  { rewrite <- Z.bit0_odd. unfold m. rewrite !Z.lor_spec.
    change (Z.testbit 1 0) with true. by rewrite !orb_true_r. }
  assert (Hpos : 0 < Z.lor r m).
  { assert (0 <= Z.lor r m) by (apply Z.lor_nonneg; lia).
    destruct (Z.eq_dec (Z.lor r m) 0) as [H0 | ?]; [|lia].
    rewrite H0 in Hodd. discriminate. }
  split.
  - pose proof (Z.log2_spec _ Hpos) as Hs. rewrite Hlog in Hs.
    replace (Z.succ (bits - 1)) with bits in Hs by lia. done.
  - split; [done|]. unfold Coibite.bit_length.
    destruct (Z.eqb_spec (Z.lor r m) 0); [lia|].
    rewrite Z.abs_eq by lia. lia.
Qed.

Lemma candidate_shape_witness :
  exists candidate c',
    _generate_candidate Sample.world 16 Sample.start = Ok (candidate, c') /\
    2 ^ (16 - 1) <= candidate < 2 ^ 16 /\
    Z.odd candidate = true /\
    Coibite.bit_length candidate = 16.
Proof. apply (candidate_shape Sample.world 16 Sample.start). lia. Defined.

(** X4: a bit length below 16 is refused before anything is drawn. *)
Theorem generate_prime_short world fuel self bits c :
  bits < 16 ->
  generate_prime world fuel self bits c
  = Raise (ValueError "Prime must be at least 16 bits").
Proof.
  intros Hbits. unfold generate_prime.
  destruct (Z.ltb_spec bits 16); [done | lia].
Qed.

Lemma generate_prime_short_witness :
  exists self,
    init 30 true true 64 = Ok self /\
    generate_prime Sample.world 5 self 15 Sample.start
    = Raise (ValueError "Prime must be at least 16 bits").
Proof.
  eexists. split; [reflexivity|].
  apply (generate_prime_short Sample.world 5 _ 15 Sample.start). lia.
Defined.

(** [pow_mod] is modular exponentiation. *)
Lemma pow_mod_spec a e n : 0 < n -> pow_mod a e n = a ^ Zpos e mod n.
Proof.
  intros Hn. induction e as [e IH | e IH |]; simpl pow_mod.
  - rewrite IH, Pos2Z.inj_xI.
    replace (2 * Z.pos e + 1) with (Z.pos e + Z.pos e + 1) by lia.
    rewrite !Z.pow_add_r by lia. rewrite Z.pow_1_r.
    rewrite <- Z.mul_mod by lia. rewrite Z.mul_mod_idemp_l by lia. done.
  - rewrite IH, Pos2Z.inj_xO.
    replace (2 * Z.pos e) with (Z.pos e + Z.pos e) by lia.
    rewrite Z.pow_add_r by lia. by rewrite <- Z.mul_mod by lia.
  - by rewrite Z.pow_1_r.
Qed.

(** X6: the loop [while d % 2 == 0] leaves [n - 1 = 2^r * d] with [d]
    odd. *)
Theorem factor_twos_spec m :
  let '(r, d) := factor_twos m in
  0 <= r /\ Zpos m = 2 ^ r * Zpos d /\ Z.odd (Zpos d) = true.
Proof.
  induction m as [m IH | m IH |]; simpl; try (split; [lia|]; split; [lia | done]).
  destruct (factor_twos m) as [r d]. destruct IH as (Hr & Heq & Hodd).
  split; [lia|]. split; [|done].
  rewrite Z.pow_add_r by lia. rewrite Pos2Z.inj_xO, Heq. lia.
Qed.

(** X5: the answers of [_miller_rabin] that need no random witness:
    [False] below 2 and for even numbers above 2, [True] for 2 and 3. *)
Theorem miller_rabin_fixed world n rounds c :
  (n < 2 -> _miller_rabin world n rounds c = Ok (false, c)) /\
  (n = 2 \/ n = 3 -> _miller_rabin world n rounds c = Ok (true, c)) /\
  (3 < n -> n mod 2 = 0 -> _miller_rabin world n rounds c = Ok (false, c)).
Proof.
  unfold _miller_rabin. repeat split.
  - intros Hn. by destruct (Z.ltb_spec n 2); [|lia].
  - by intros [-> | ->].
  - intros Hn Heven. destruct (Z.ltb_spec n 2); [lia|].
    destruct (Z.eqb_spec n 2); [lia|]. destruct (Z.eqb_spec n 3); [lia|].
    simpl. by rewrite Heven.
Qed.

End PrimeGenMore.

Module WheelMore.
Import Wheel WheelFacts.

(** X2: construction fails exactly for a size outside the table. *)
Theorem init_unsupported size aware :
  size ∉ [6; 30; 210; 2310; 30030] <->
  init size aware
  = Raise (ValueError "Wheel size must be one of [6, 30, 210, 2310, 30030]").
Proof.
  unfold init. split.
  - intros Hsize. destruct (WHEEL_BASIS !! size) as [basis|] eqn:Hb; [|done].
    exfalso. apply Hsize. apply basis_lookup in Hb.
    repeat (apply elem_of_cons in Hb as [[= -> _] | Hb];
            [repeat first [apply list_elem_of_here | apply list_elem_of_further]|]).
    inversion Hb.
  - intros Hraise Hin.
    assert (Hsome : is_Some (WHEEL_BASIS !! size)).
    { repeat (apply elem_of_cons in Hin as [-> | Hin]; [by eexists|]).
      inversion Hin. }
    destruct Hsome as [basis Hb]. by rewrite Hb in Hraise.
Qed.

Lemma spokes_ok_spec size count aware w :
  Sample.spokes_ok size count = true ->
  init size aware = Ok w ->
  spoke_count w = count /\
  forall s, s ∈ spokes w <-> 1 <= s < size /\ Z.gcd s size = 1.
Proof.
  unfold Sample.spokes_ok, init.
  destruct (WHEEL_BASIS !! size) as [basis|]; [|done]. simpl.
  intros Hok [= <-]. simpl.
  apply andb_true_iff in Hok as [Hcount Heq].
  apply Z.eqb_eq in Hcount. split; [done|].
  apply bool_decide_eq_true_1 in Heq. rewrite Heq. intros s.
  rewrite list_elem_of_In, filter_In, <- list_elem_of_In.
  rewrite elem_of_range, Z.eqb_eq. lia.
Qed.

(** X1: the spokes of a supported wheel are the residues of
    [1, wheel_size) coprime to the wheel size; there are 2, 8, 48, 480 and
    5760 of them for the five sizes. *)
Theorem spokes_coprime size aware w :
  init size aware = Ok w ->
  (forall s, s ∈ spokes w <-> 1 <= s < wheel_size w /\ Z.gcd s (wheel_size w) = 1) /\
  (size, spoke_count w) ∈ [(6, 2); (30, 8); (210, 48); (2310, 480); (30030, 5760)].
Proof.
  intros Hinit. destruct (wheel_init_inv _ _ _ Hinit) as (Hsize & _ & _ & Hb & _).
  rewrite Hsize. apply basis_lookup in Hb.
  assert (Hcases : exists count,
            (size, count) ∈ [(6, 2); (30, 8); (210, 48); (2310, 480); (30030, 5760)]
            /\ Sample.spokes_ok size count = true).
  { repeat (apply elem_of_cons in Hb as [[= -> _] | Hb];
            [eexists; split;
               [repeat first [apply list_elem_of_here | apply list_elem_of_further]
               | by vm_compute]|]).
    inversion Hb. }
  destruct Hcases as (count & Hin & Hok).
  destruct (spokes_ok_spec _ _ _ _ Hok Hinit) as [-> Hsp]. done.
Qed.

Lemma spokes_coprime_witness :
  exists w, init 210 true = Ok w /\ spoke_count w = 48 /\ Z.gcd 11 210 = 1.
Proof.
  eexists. split; [reflexivity|]. split; [reflexivity|].
  apply (proj1 (spokes_coprime 210 true _ eq_refl) 11).
  vm_compute. do 1 apply list_elem_of_further. apply list_elem_of_here.
Defined.

End WheelMore.

Module CoibiteMore.
Import Coibite CoibiteFacts.

(** X7: a token is rejected when it is not base64, when its text is not JSON,
    when the JSON value is not an object, and when the version of the
    object is not exactly ["1.0"]. *)
Theorem decode_rejects (L : Lib) :
  (forall code, b64decode code = None -> decode code = invalid) /\
  (forall code json_str,
     b64decode code = Some json_str -> json_loads json_str = None ->
     decode code = invalid) /\
  (forall code json_str data,
     b64decode code = Some json_str -> json_loads json_str = Some data ->
     decode code = decode_data data) /\
  (forall data, (forall d, data <> VDict d) -> decode_data data = invalid) /\
  (forall d, d !! "version" <> Some (VStr VERSION) -> decode_data (VDict d) = invalid).
Proof.
  repeat split.
  - intros code H. unfold decode. by rewrite H.
  - intros code json_str H1 H2. unfold decode. by rewrite H1, H2.
  - intros code json_str data H1 H2. unfold decode. by rewrite H1, H2.
  - intros data Hd. destruct data; try done. by destruct (Hd m).
  - intros d Hv. unfold decode_data.
    destruct (d !! "version") as [v|]; [|done].
    destruct v as [| | | |s| | |]; try done. simpl.
    destruct (String.eqb_spec s VERSION) as [-> | Hne]; [done | done].
Qed.

Lemma decode_rejects_witness :
  decode_data (L := Sample.lib)
    (VDict (list_to_map [("version", VStr "2.0"); ("timestamp", VFloat 1%Q)]))
  = invalid.
Proof.
  apply (proj2 (proj2 (proj2 (proj2 (decode_rejects Sample.lib))))).
  vm_compute. discriminate.
Defined.

(** X8: encoding then decoding gives back the timestamp, the metadata, the
    signature, and the prime when it was included (0 otherwise); when the
    metadata is a dictionary without the key ["checksum"],
    [verify_integrity] on the decoded record returns [True]. *)
Theorem encode_decode_roundtrip (L : Lib) self include data :
  encode_data self include = Ok data ->
  (if truthy (metadata self) then metadata self else VDict ∅) = metadata self ->
  (include = true -> int_str (str_int (prime self)) = Some (prime self)) ->
  (forall sig, has_signature self = Some sig -> b64decode (b64encode sig) = Some sig) ->
  let decoded :=
    {| prime := if include then prime self else 0;
       timestamp := timestamp self;
       metadata := metadata self;
       signature := has_signature self |} in
  decode_data (VDict data) = Ok decoded /\
  (forall m, metadata self = VDict m -> m !! "checksum" = None ->
             verify_integrity decoded = Ok true).
Proof.
  intros Henc Hmd Hint Hb64 decoded. subst decoded.
  apply encode_data_inv in Henc as (checksum & _ & Hv & Ht & Hm & _ & Hp & Hs).
  split.
  - unfold decode_data. rewrite Hv, Hp, Ht, Hm, Hs. simpl.
    rewrite Hmd.
    assert (Hprime : (if include
                      then int_str (str_int (prime self))
                      else Some 0) = Some (if include then prime self else 0)).
    { destruct include; [by apply Hint | done]. }
    destruct include; simpl in *; rewrite ?Hprime;
      (destruct (has_signature self) as [sig|]; simpl;
       [by rewrite (Hb64 sig eq_refl) | done]).
  - intros m Hmeta Hkey. by apply (CoibiteClaims.verify_integrity_no_key L _ m).
Qed.

Lemma encode_decode_roundtrip_witness :
  exists data,
    encode_data (L := Sample.lib)
      {| prime := 65537; timestamp := VFloat 1%Q;
         metadata := VDict {["bits" := VInt 17]}; signature := Some "proof" |} true
    = Ok data /\
    decode_data (L := Sample.lib) (VDict data)
    = Ok {| prime := 65537; timestamp := VFloat 1%Q;
            metadata := VDict {["bits" := VInt 17]}; signature := Some "proof" |}.
Proof.
  eexists. split; [reflexivity|].
  apply (encode_decode_roundtrip Sample.lib
           {| prime := 65537; timestamp := VFloat 1%Q;
              metadata := VDict {["bits" := VInt 17]}; signature := Some "proof" |}
           true); reflexivity.
Defined.

End CoibiteMore.

Module RiversMore.
Import Rivers.

Lemma incr_lookup k d (freq : gmap Z Z) :
  default 0 (incr k freq !! d)
  = default 0 (freq !! d) + (if k =? d then 1 else 0).
Proof.
  unfold incr. destruct (Z.eqb_spec k d) as [-> | Hne].
  - by rewrite lookup_insert_eq.
  - rewrite lookup_insert_ne by done. lia.
Qed.

Lemma count_endings_lookup primes (freq : gmap Z Z) d :
  default 0 (count_endings primes freq !! d)
  = default 0 (freq !! d)
    + Z.of_nat (length (List.filter (fun p => (5 <? p) && (p mod 10 =? d)) primes)).
Proof.
  unfold count_endings. revert freq.
  induction primes as [|p primes IH]; intros freq; simpl; [lia|].
  rewrite IH. destruct (5 <? p); simpl.
  - rewrite incr_lookup. destruct (p mod 10 =? d); simpl length; lia.
  - lia.
Qed.

(** X9: [analyze_primes] on a new instance: the frequency of a digit is the
    number of analysed values above 5 that end in it. *)
Theorem analyze_primes_counts primes d :
  default 0 (digit_frequencies (analyze_primes init primes) !! d)
  = Z.of_nat (length (List.filter (fun p => (5 <? p) && (p mod 10 =? d)) primes)).
Proof. simpl. rewrite count_endings_lookup. by rewrite lookup_empty. Qed.

End RiversMore.

(* ===================================================================== *)
(** ** The sieve of small primes and the candidates of a range *)
(* ===================================================================== *)

Module SieveFacts.
Import Wheel WheelFacts Predicates.

Lemma elem_of_count_from_step n a step x :
  x ∈ count_from n a step <-> exists k, 0 <= k < Z.of_nat n /\ x = a + k * step.
Proof.
  revert a. induction n as [|n IH]; intros a; simpl count_from.
  - split; [intros H; inversion H | intros (k & Hk & _); lia].
  - rewrite elem_of_cons, IH. split.
    + intros [-> | (k & Hk & ->)]; [exists 0; lia | exists (k + 1); lia].
    + intros (k & Hk & ->). destruct (Z.eq_dec k 0) as [-> | Hne]; [left; lia|].
      right. exists (k - 1). lia.
Qed.

Lemma elem_of_range_step a b step x :
  0 < step ->
  x ∈ range_step a b step <-> a <= x < b /\ (x - a) mod step = 0.
Proof.
  intros Hstep. unfold range_step. rewrite elem_of_count_from_step.
  set (q := (b - a + step - 1) / step).
  assert (Hq : forall k, k < q <-> a + k * step < b).
  { intros k. unfold q. split.
    - intros Hk. assert (Hle : (k + 1) * step <= b - a + step - 1).
      { pose proof (Z.mul_div_le (b - a + step - 1) step Hstep). nia. }
      lia.
    - intros Hk. assert (k + 1 <= (b - a + step - 1) / step); [|lia].
      apply Z.div_le_lower_bound; [lia|]. lia. }
  split.
  - intros (k & Hk & ->). split.
    + assert (k < q) by lia. apply Hq in H. nia.
    + replace (a + k * step - a) with (k * step) by lia. apply Z_mod_mult.
  - intros [Hx Hmod]. apply Z.mod_divide in Hmod as [k Hk]; [|lia].
    exists k. assert (x = a + k * step) by lia. subst x.
    split; [|done]. assert (0 <= k) by nia. split; [done|].
    assert (k < q) by (apply Hq; lia). lia.
Qed.

(** Reading the flag array after a run of [is_prime[j] = False]. *)
Lemma strike_all_lookup (js : list Z) (arr : list bool) (n : nat) :
  default false (foldl (fun acc j => <[Z.to_nat j := false]> acc) arr js !! n) = true
  <-> default false (arr !! n) = true /\ forall j, j ∈ js -> Z.to_nat j <> n.
Proof.
  revert arr. induction js as [|j js IH]; intros arr; simpl.
  - split; [intros H; split; [done|] | by intros [H _]].
    intros j Hj. inversion Hj.
  - rewrite IH. split.
    + intros [Hn Hjs]. destruct (decide (Z.to_nat j = n)) as [<- | Hne].
      * destruct (decide (Z.to_nat j < length arr)%nat) as [Hlt | Hge].
        -- by rewrite list_lookup_insert_eq in Hn.
        -- rewrite list_insert_ge in Hn by lia.
           rewrite (lookup_ge_None_2 arr) in Hn by lia. done.
      * rewrite list_lookup_insert_ne in Hn by done. split; [done|].
        intros j' Hj'. apply elem_of_cons in Hj' as [-> | Hj']; [done | auto].
    + intros [Hn Hjs]. split.
      * rewrite list_lookup_insert_ne; [done|]. apply Hjs. left.
      * intros j' Hj'. apply Hjs. by right.
Qed.

Lemma strike_length arr i limit : length (strike arr i limit) = length arr.
Proof.
  unfold strike. generalize (range_step (i * i) (limit + 1) i). intros js.
  revert arr. induction js as [|j js IH]; intros arr; simpl; [done|].
  by rewrite IH, length_insert.
Qed.

Lemma strike_flag arr i limit j :
  0 < i -> 0 <= j ->
  flag (strike arr i limit) j
  <-> flag arr j /\ ~ (i * i <= j <= limit /\ (i | j)).
Proof.
  intros Hi Hj. unfold flag, strike. rewrite strike_all_lookup. split.
  - intros [Hf Hjs]. split; [done|]. intros [Hr [c Hc]].
    apply (Hjs j); [|done]. apply elem_of_range_step; [done|].
    split; [lia|]. apply Z.mod_divide; [lia|]. exists (c - i). lia.
  - intros [Hf Hno]. split; [done|]. intros j' Hj' Heq.
    apply elem_of_range_step in Hj' as [Hr Hmod]; [|done].
    assert (j' = j) by lia. subst j'. apply Hno. split; [lia|].
    apply Z.mod_divide in Hmod as [c Hc]; [|lia]. exists (c + i). lia.
Qed.

Lemma sieve_step limit m arr :
  2 <= m -> sieved limit m arr ->
  sieved limit (m + 1)
    (if default false (arr !! Z.to_nat m) then strike arr m limit else arr).
Proof.
  intros Hm Hs j Hj. destruct (default false (arr !! Z.to_nat m)) eqn:Hflag.
  - (* m is prime so far: its multiples from m * m on are struck *)
    rewrite strike_flag by lia. rewrite (Hs j Hj). split.
    + intros [[H2 Hd] Hno]. split; [done|]. intros d Hdm Hdiv.
      destruct (Z.eq_dec d m) as [-> | Hne]; [|apply Hd; [lia | done]].
      destruct (Z.eq_dec m j) as [|Hmj]; [done|]. exfalso. apply Hno.
      split; [|done]. split; [|lia].
      destruct Hdiv as [e He].
      assert (0 < e) by nia. assert (e <> 1) by (intros ->; lia).
      assert (m <= e); [|nia].
      destruct (Z_lt_le_dec e m) as [Hlt|]; [|done].
      assert (e = j) by (apply Hd; [lia | exists m; lia]). nia.
    + intros [H2 Hd]. split; [split; [done|]; intros d Hdm; apply Hd; lia|].
      intros [Hr Hdiv]. assert (m = j) by (apply Hd; [lia | done]). nia.
  - (* m has a smaller divisor: whatever it divides was struck already *)
    rewrite (Hs j Hj). split.
    + intros [H2 Hd]. split; [done|]. intros d Hdm Hdiv.
      destruct (Z.eq_dec d m) as [-> | Hne]; [|apply Hd; [lia | done]].
      assert (Hnf : ~ flag arr m) by (unfold flag; rewrite Hflag; done).
      destruct (Z_le_gt_dec m limit) as [Hml | Hml].
      * rewrite (Hs m) in Hnf by lia.
        destruct (Z.eq_dec m j) as [|Hmj]; [done|]. exfalso. apply Hnf.
        split; [done|]. intros d Hd2 Hdm'.
        assert (d = j) by (apply Hd; [lia | by eapply Z.divide_trans]).
        subst d. apply Z.divide_pos_le in Hdiv; lia.
      * apply Z.divide_pos_le in Hdiv; lia.
    + intros [H2 Hd]. split; [done|]. intros d Hdm. apply Hd. lia.
Qed.

Lemma sieve_run limit n m arr :
  2 <= m -> sieved limit m arr ->
  sieved limit (m + Z.of_nat n)
    (foldl (fun acc i =>
              if default false (acc !! Z.to_nat i) then strike acc i limit else acc)
           arr (count_from n m 1)).
Proof.
  revert m arr. induction n as [|n IH]; intros m arr Hm Hs; simpl.
  - by replace (m + Z.of_nat 0) with m by lia.
  - replace (m + Z.of_nat (S n)) with (m + 1 + Z.of_nat n) by lia.
    apply IH; [lia|]. by apply sieve_step.
Qed.

(** An integer from 2 on is prime when no [d] with [d * d <= x] divides
    it properly. *)
Lemma prime_no_small_divisor x :
  prime x <-> 2 <= x /\ forall d, 2 <= d -> d * d <= x -> ~ (d | x).
Proof.
  split.
  - intros Hp. pose proof (prime_ge_2 _ Hp). split; [done|].
    intros d Hd Hsq Hdiv.
    destruct (prime_divisors _ Hp _ Hdiv) as [? | [? | [? | ?]]]; nia.
  - intros [H2 Hno]. destruct (prime_dec x) as [|Hnp]; [done|]. exfalso.
    destruct (not_prime_divide x ltac:(lia) Hnp) as (n & Hn & [q Hq]).
    assert (0 < q) by nia.
    destruct (Z_le_gt_dec n q).
    + apply (Hno n); [lia | nia | by exists q].
    + assert (q <> 1) by (intros ->; lia).
      apply (Hno q); [lia | nia | exists n; lia].
Qed.

Lemma sieved_prime limit x :
  2 <= limit -> 0 <= x <= limit ->
  (2 <= x /\ forall d, 2 <= d < Z.sqrt limit + 1 -> (d | x) -> d = x) <-> prime x.
Proof.
  intros Hl Hx. rewrite prime_no_small_divisor. split.
  - intros [H2 Hd]. split; [done|]. intros d Hd2 Hsq Hdiv.
    assert (d <= Z.sqrt limit) by (apply Z.sqrt_le_square; lia).
    assert (d = x) by (apply Hd; [lia | done]). nia.
  - intros [H2 Hno]. split; [done|]. intros d Hd Hdiv.
    destruct (Z.eq_dec d x) as [|Hne]; [done|]. exfalso.
    destruct Hdiv as [e He]. assert (0 < e) by nia.
    assert (e <> 1) by (intros ->; lia).
    destruct (Z_le_gt_dec d e).
    + apply (Hno d); [lia | nia | by exists e].
    + apply (Hno e); [lia | nia | exists d; lia].
Qed.

Lemma count_from_sorted n a : StronglySorted Z.lt (count_from n a 1).
Proof.
  revert a. induction n as [|n IH]; intros a; simpl; constructor; [apply IH|].
  apply Forall_forall. intros x Hx. apply elem_of_count_from in Hx. lia.
Qed.

Lemma filter_sorted (f : Z -> bool) l :
  StronglySorted Z.lt l -> StronglySorted Z.lt (List.filter f l).
Proof.
  induction 1 as [|x l Hl IH Hx]; simpl; [constructor|].
  destruct (f x); [|done]. constructor; [done|].
  apply Forall_forall. intros y Hy.
  apply list_elem_of_In, filter_In in Hy as [Hy _].
  rewrite Forall_forall in Hx. apply Hx. by apply list_elem_of_In.
Qed.

(** [_get_small_primes(limit)] is the ascending list of the primes up to
    [limit]. *)
Lemma small_primes_char limit :
  StronglySorted Z.lt (_get_small_primes limit) /\
  forall x, x ∈ _get_small_primes limit <-> prime x /\ x <= limit.
Proof.
  unfold _get_small_primes. destruct (Z.ltb_spec limit 2) as [Hlt | Hge].
  - split; [constructor|]. intros x. split; [intros H; inversion H|].
    intros [Hp Hx]. pose proof (prime_ge_2 _ Hp). lia.
  - split; [apply filter_sorted, count_from_sorted|]. intros x.
    rewrite list_elem_of_In, filter_In, <- list_elem_of_In, elem_of_range.
    set (arr0 := <[1%nat := false]> (<[0%nat := false]>
                   (replicate (Z.to_nat (limit + 1)) true))).
    assert (H0 : sieved limit 2 arr0).
    { intros j Hj. unfold flag, arr0. split.
      - intros Hf. split; [|lia].
        destruct (Z.to_nat j) as [|[|n]] eqn:Hn; [| |lia].
        + rewrite list_lookup_insert_ne in Hf by done.
          rewrite list_lookup_insert_eq in Hf; [done|].
          rewrite length_replicate. lia.
        + rewrite list_lookup_insert_eq in Hf; [done|].
          rewrite length_insert, length_replicate. lia.
      - intros [H2 _]. rewrite !list_lookup_insert_ne by lia.
        rewrite lookup_replicate_2 by lia. done. }
    pose proof (sieve_run limit (Z.to_nat (Z.sqrt limit + 1 - 2)) 2 arr0
                  ltac:(lia) H0) as Hrun.
    assert (Hs : 1 <= Z.sqrt limit).
    { apply Z.sqrt_le_square; lia. }
    replace (2 + Z.of_nat (Z.to_nat (Z.sqrt limit + 1 - 2)))
      with (Z.sqrt limit + 1) in Hrun by lia.
    unfold range, int_sqrt.
    set (arr := foldl _ arr0 _) in *.
    split.
    + intros [Hr Hf]. split; [|lia].
      apply (proj1 (sieved_prime limit x ltac:(lia) ltac:(lia))).
      apply Hrun; [lia | done].
    + intros [Hp Hx]. pose proof (prime_ge_2 _ Hp). split; [lia|].
      apply Hrun; [lia|].
      by apply (proj2 (sieved_prime limit x ltac:(lia) ltac:(lia))).
Qed.

(** X10: [_get_small_primes(limit)] returns, in ascending order and without
    repetition, exactly the primes up to [limit]. *)
Theorem small_primes_spec limit :
  StronglySorted Z.lt (_get_small_primes limit) /\
  forall x, x ∈ _get_small_primes limit <-> prime x /\ x <= limit.
Proof. exact (small_primes_char limit). Qed.

End SieveFacts.

Module CandidateFacts.
Import Wheel WheelFacts SieveFacts Predicates.

Lemma prime_of_check p :
  2 <= p -> forallb (fun d => negb (p mod d =? 0)) (range 2 (Z.sqrt p + 1)) = true ->
  prime p.
Proof.
  intros Hp Hall. apply prime_no_small_divisor. split; [done|].
  intros d Hd Hsq Hdiv. rewrite forallb_forall in Hall.
  assert (Hin : d ∈ range 2 (Z.sqrt p + 1)).
  { apply elem_of_range. assert (d <= Z.sqrt p) by (apply Z.sqrt_le_square; lia). lia. }
  apply list_elem_of_In, Hall in Hin. apply Z.mod_divide in Hdiv; [|lia].
  rewrite Hdiv in Hin. done.
Qed.

(** The table of basis primes. *)
Lemma basis_facts size basis :
  WHEEL_BASIS !! size = Some basis ->
  StronglySorted Z.lt basis /\
  2 ∈ basis /\
  forall p, p ∈ basis -> prime p /\ (p | size) /\ p < size.
Proof.
  intros Hb. apply basis_lookup in Hb.
  repeat (apply elem_of_cons in Hb as [[= -> ->] | Hb];
    [split; [repeat (constructor; [|repeat (constructor; try lia)]); constructor|];
     split; [apply list_elem_of_here|];
     intros p Hp;
     repeat (apply elem_of_cons in Hp as [-> | Hp];
       [split; [by apply prime_of_check; [lia | vm_compute]|];
        split; [by apply Z.mod_divide; [lia | vm_compute] | lia]|]);
     inversion Hp|]).
  inversion Hb.
Qed.

Lemma spokes_spec size basis s :
  s ∈ _generate_spokes size basis <-> 1 <= s < size /\ unsieved basis s.
Proof.
  unfold _generate_spokes.
  rewrite list_elem_of_In, filter_In, <- list_elem_of_In, elem_of_range.
  rewrite forallb_forall. unfold unsieved. split.
  - intros [Hr Hall]. split; [done|]. intros p Hp Hmod.
    apply list_elem_of_In, Hall in Hp. rewrite Hmod in Hp. done.
  - intros [Hr Hall]. split; [done|]. intros p Hp.
    apply list_elem_of_In, Hall in Hp. by destruct (Z.eqb_spec (s mod p) 0).
Qed.

Lemma spokes_sorted size basis : StronglySorted Z.lt (_generate_spokes size basis).
Proof. apply filter_sorted, count_from_sorted. Qed.

(** What construction establishes. *)
Lemma wheel_facts size aware w :
  init size aware = Ok w ->
  wheel_size w = size /\ decimal_aware w = aware /\
  decimal_weights w = (if aware then _compute_decimal_weights else ∅) /\
  WHEEL_BASIS !! size = Some (basis_primes w) /\
  StronglySorted Z.lt (spokes w) /\
  forall s, s ∈ spokes w <-> 1 <= s < size /\ unsieved (basis_primes w) s.
Proof.
  unfold init. destruct (WHEEL_BASIS !! size) as [basis|] eqn:Hb; [|done].
  intros [= <-]. simpl. split; [done|]. split; [done|]. split; [done|].
  split; [done|]. split; [apply spokes_sorted|]. intros s. apply spokes_spec.
Qed.

(** The decimal profile kept by a decimal-aware wheel: last digit 1, 3, 7
    or 9. *)
Lemma good_profile_spec size aware w x :
  init size aware = Ok w ->
  good_profile w x = true <-> aware = false \/ x mod 10 ∈ [1; 3; 7; 9].
Proof.
  intros Hinit. destruct (wheel_facts _ _ _ Hinit) as (_ & Ha & Hw & _).
  unfold good_profile. rewrite Ha, Hw. destruct aware; [|split; auto].
  assert (Hd : 0 <= x mod 10 < 10) by (apply Z.mod_pos_bound; lia).
  assert (Hk : exists k : nat, (k < 10)%nat /\ x mod 10 = Z.of_nat k).
  { exists (Z.to_nat (x mod 10)). lia. }
  destruct Hk as (k & Hk & ->).
  do 10 (destruct k as [|k];
    [vm_compute; split;
       [intros H; first [discriminate H | right;
          repeat first [apply list_elem_of_here | apply list_elem_of_further]]
       | intros [H | H]; [discriminate H|];
         first [reflexivity
               | repeat (apply elem_of_cons in H as [H | H]; [discriminate H|]);
                 inversion H]]|]).
  lia.
Qed.

Section Loop.
Variables (w : ExtendedWheel) (start end_ : Z).
Hypothesis Hsize : 0 < wheel_size w.
Hypothesis Hsorted : StronglySorted Z.lt (spokes w).
Hypothesis Hspokes : forall s, s ∈ spokes w -> 1 <= s < wheel_size w.

Lemma spoke_loop_spec current sp :
  StronglySorted Z.lt sp ->
  (forall x, x ∈ (spoke_loop w start end_ current sp).1 <->
     exists s, s ∈ sp /\ x = current + s /\ start <= x <= end_ /\
               good_profile w x = true) /\
  ((spoke_loop w start end_ current sp).2 = true ->
     exists s, s ∈ sp /\ end_ < current + s).
Proof.
  induction 1 as [|spoke rest Hrest IH Hall]; simpl.
  - split; [|done]. intros x. split; [intros H; inversion H|].
    intros (s & Hs & _). inversion Hs.
  - destruct IH as [IHx IHr]. rewrite Forall_forall in Hall.
    destruct (Z.leb_spec start (current + spoke)) as [Hlo | Hlo];
      destruct (Z.leb_spec (current + spoke) end_) as [Hhi | Hhi]; simpl.
    + destruct (spoke_loop w start end_ current rest) as [out returned] eqn:Hl.
      simpl in *. split.
      * intros x. rewrite elem_of_app, IHx. split.
        -- intros [Hx | (s & Hs & Hx)].
           ++ destruct (good_profile w (current + spoke)) eqn:Hg; [|inversion Hx].
              apply list_elem_of_singleton in Hx. subst x.
              exists spoke. split; [left|]. done.
           ++ exists s. split; [by right | done].
        -- intros (s & Hs & Hx & Hr & Hg).
           apply elem_of_cons in Hs as [-> | Hs].
           ++ left. subst x. rewrite Hg. left.
           ++ right. exists s. done.
      * intros Hret. destruct (IHr Hret) as (s & Hs & Hgt).
        exists s. split; [by right | done].
    + destruct (Z.ltb_spec end_ (current + spoke)); [|lia]. simpl. split.
      * intros x. split; [intros H'; inversion H'|].
        intros (s & Hs & -> & Hr & _).
        apply elem_of_cons in Hs as [-> | Hs]; [lia|].
        apply Hall in Hs. lia.
      * intros _. exists spoke. split; [left | done].
    + destruct (Z.ltb_spec end_ (current + spoke)); [lia|]. split.
      * intros x. rewrite IHx. split.
        -- intros (s & Hs & Hx). exists s. split; [by right | done].
        -- intros (s & Hs & -> & Hr & Hg).
           apply elem_of_cons in Hs as [-> | Hs]; [lia|]. by exists s.
      * intros Hret. destruct (IHr Hret) as (s & Hs & Hgt).
        exists s. split; [by right | done].
    + destruct (Z.ltb_spec end_ (current + spoke)); [|lia]. simpl. split.
      * intros x. split; [intros H'; inversion H'|].
        intros (s & Hs & -> & Hr & _).
        apply elem_of_cons in Hs as [-> | Hs]; [lia|].
        apply Hall in Hs. lia.
      * intros _. exists spoke. split; [left | done].
Qed.

Lemma wheel_loop_spec fuel current x :
  (Z.to_nat (end_ - current + 1) <= fuel)%nat ->
  x ∈ wheel_loop fuel w start end_ current <->
  exists k s, 0 <= k /\ s ∈ spokes w /\ x = current + k * wheel_size w + s /\
              start <= x <= end_ /\ good_profile w x = true.
Proof.
  revert current. induction fuel as [|fuel IH]; intros current Hfuel; simpl.
  - split; [intros H; inversion H|]. intros (k & s & Hk & Hs & -> & Hr & _).
    apply Hspokes in Hs. nia.
  - destruct (Z.leb_spec current end_) as [Hle | Hgt].
    2:{ split; [intros H; inversion H|]. intros (k & s & Hk & Hs & -> & Hr & _).
        apply Hspokes in Hs. nia. }
    destruct (spoke_loop_spec current (spokes w) Hsorted) as [Hout Hret].
    destruct (spoke_loop w start end_ current (spokes w)) as [out returned].
    simpl in *.
    assert (Hrec : x ∈ wheel_loop fuel w start end_ (current + wheel_size w) <->
              exists k s, 1 <= k /\ s ∈ spokes w /\
                x = current + k * wheel_size w + s /\
                start <= x <= end_ /\ good_profile w x = true).
    { rewrite IH by lia. split.
      - intros (k & s & Hk & Hs & -> & Hr). exists (k + 1), s.
        split; [lia|]. split; [done|]. split; [lia|]. done.
      - intros (k & s & Hk & Hs & -> & Hr). exists (k - 1), s.
        split; [lia|]. split; [done|]. split; [lia|]. done. }
    assert (Hmerge : x ∈ out \/ x ∈ wheel_loop fuel w start end_ (current + wheel_size w)
              <-> exists k s, 0 <= k /\ s ∈ spokes w /\
                    x = current + k * wheel_size w + s /\
                    start <= x <= end_ /\ good_profile w x = true).
    { rewrite Hout, Hrec. split.
      - intros [(s & Hs & -> & Hr) | (k & s & Hk & Hr)].
        + exists 0, s. split; [lia|]. split; [done|]. split; [lia|]. done.
        + exists k, s. split; [lia | done].
      - intros (k & s & Hk & Hs & Hx & Hr).
        destruct (Z.eq_dec k 0) as [-> | Hne].
        + left. exists s. split; [done|]. split; [lia | done].
        + right. exists k, s. split; [lia | done]. }
    destruct returned.
    + rewrite <- Hmerge. split; [by left|]. intros [Hx | Hx]; [done|].
      exfalso. apply Hrec in Hx as (k & s & Hk & Hs & -> & Hr & _).
      destruct (Hret eq_refl) as (s0 & Hs0 & Hgt).
      apply Hspokes in Hs, Hs0. nia.
    + by rewrite elem_of_app.
Qed.

Lemma spoke_loop_sorted current sp :
  StronglySorted Z.lt sp ->
  StronglySorted Z.lt (spoke_loop w start end_ current sp).1.
Proof.
  intros Hsp. pose proof (spoke_loop_spec current sp Hsp) as [Hspec _].
  revert Hspec. induction Hsp as [|spoke rest Hrest IH Hall]; simpl.
  - intros _. constructor.
  - rewrite Forall_forall in Hall.
    pose proof (spoke_loop_spec current rest Hrest) as [Hrspec _].
    destruct ((start <=? current + spoke) && (current + spoke <=? end_)).
    + destruct (spoke_loop w start end_ current rest) as [out returned].
      simpl in *. intros _. apply StronglySorted_app_2.
      * intros x1 x2 Hx1 Hx2.
        destruct (good_profile w (current + spoke)); [|inversion Hx1].
        apply list_elem_of_singleton in Hx1. subst x1.
        apply Hrspec in Hx2 as (s & Hs & -> & _). apply Hall in Hs. lia.
      * destruct (good_profile w (current + spoke)); repeat constructor.
      * by apply IH.
    + destruct (end_ <? current + spoke); simpl; [intros _; constructor|].
      intros _. by apply IH.
Qed.

Lemma wheel_loop_sorted fuel current :
  StronglySorted Z.lt (wheel_loop fuel w start end_ current).
Proof.
  revert current. induction fuel as [|fuel IH]; intros current; simpl; [constructor|].
  destruct (current <=? end_); [|constructor].
  pose proof (spoke_loop_sorted current (spokes w) Hsorted) as Hs.
  pose proof (spoke_loop_elem w start end_ current (spokes w)) as He.
  destruct (spoke_loop w start end_ current (spokes w)) as [out returned].
  simpl in *. destruct returned; [done|].
  apply StronglySorted_app_2; [|done|apply IH].
  intros x1 x2 Hx1 Hx2. apply He in Hx1 as (s & Hs1 & -> & _).
  apply wheel_loop_elem in Hx2 as [Hx2 _]; [|lia|].
  - apply Hspokes in Hs1. lia.
  - intros s' Hs'. apply Hspokes in Hs'. lia.
Qed.

End Loop.

Lemma unsieved_shift basis size c s :
  (forall p, p ∈ basis -> (p | size)) ->
  unsieved basis (c * size + s) <-> unsieved basis s.
Proof.
  intros Hdiv. unfold unsieved.
  assert (Hmod : forall p, p ∈ basis -> (c * size + s) mod p = s mod p).
  { intros p Hp. destruct (Hdiv p Hp) as [t ->].
    replace (c * (t * p) + s) with (s + (c * t) * p) by lia.
    apply Z_mod_plus_full. }
  split; intros H p Hp; specialize (H p Hp);
    [by rewrite <- (Hmod p Hp) | by rewrite (Hmod p Hp)].
Qed.

(** The candidates of a range: the basis primes of the range, and from the
    first wheel boundary on the integers of the range that no basis prime
    divides (for a decimal-aware wheel only those ending in 1, 3, 7 or 9). *)
Lemma candidates_elem size aware w start end_ x :
  init size aware = Ok w ->
  x ∈ generate_candidates w start end_ <->
  start <= x <= end_ /\
  (x ∈ basis_primes w \/
   (wheel_start w start < x /\ unsieved (basis_primes w) x /\
    (aware = false \/ x mod 10 ∈ [1; 3; 7; 9]))).
Proof.
  intros Hinit.
  destruct (wheel_facts _ _ _ Hinit) as (Hsz & _ & _ & Hb & Hsorted & Hsp).
  destruct (basis_facts _ _ Hb) as (_ & H2 & Hbasis).
  assert (Hpos : 0 < wheel_size w).
  { rewrite Hsz. destruct (Hbasis 2 H2) as (_ & _ & ?). lia. }
  assert (Hrange : forall s, s ∈ spokes w -> 1 <= s < wheel_size w).
  { intros s Hs. apply Hsp in Hs. lia. }
  assert (Hdiv : forall p, p ∈ basis_primes w -> (p | wheel_size w)).
  { intros p Hp. rewrite Hsz. by apply Hbasis. }
  unfold generate_candidates. rewrite elem_of_app.
  rewrite (wheel_loop_spec w start end_ Hpos Hsorted Hrange) by lia.
  rewrite list_elem_of_In, filter_In, <- list_elem_of_In.
  rewrite <- (good_profile_spec size aware w x Hinit).
  unfold wheel_start. set (q := (start - 1) / wheel_size w + 1).
  split.
  - intros [[Hx Hr] | (k & s & Hk & Hs & -> & Hr & Hg)].
    + split; [lia|]. by left.
    + split; [done|]. right. apply Hsp in Hs as Hs'. destruct Hs' as [Hs1 Hs2].
      split; [nia|]. split; [|done].
      replace (q * wheel_size w + k * wheel_size w + s)
        with ((q + k) * wheel_size w + s) by lia.
      by apply unsieved_shift.
  - intros [Hr [Hx | (Hgt & Hu & Hg)]].
    + left. split; [done|]. lia.
    + right. set (d := x - q * wheel_size w) in *.
      exists (d / wheel_size w), (d mod wheel_size w).
      pose proof (Z.div_mod d (wheel_size w) ltac:(lia)) as Hdm.
      pose proof (Z.mod_pos_bound d (wheel_size w) Hpos) as Hmb.
      assert (Hk : 0 <= d / wheel_size w) by (apply Z.div_pos; lia).
      assert (Hux : unsieved (basis_primes w) (d mod wheel_size w)).
      { apply (unsieved_shift _ (wheel_size w) (q + d / wheel_size w)); [done|].
        replace ((q + d / wheel_size w) * wheel_size w + d mod wheel_size w)
          with x by lia. done. }
      split; [done|]. split.
      * apply Hsp. split; [|done]. split; [|lia].
        destruct (Z.eq_dec (d mod wheel_size w) 0) as [H0 | ?]; [|lia].
        exfalso. apply (Hux 2 H2). rewrite H0. done.
      * split; [lia|]. done.
Qed.

(** From a start of at least 1 the candidates come in ascending order,
    none twice. *)
Lemma candidates_ordered size aware w start end_ :
  init size aware = Ok w -> 1 <= start ->
  StronglySorted Z.lt (generate_candidates w start end_).
Proof.
  intros Hinit Hstart.
  destruct (wheel_facts _ _ _ Hinit) as (Hsz & _ & _ & Hb & Hsorted & Hsp).
  destruct (basis_facts _ _ Hb) as (Hbs & H2 & Hbasis).
  assert (Hpos : 0 < wheel_size w).
  { rewrite Hsz. destruct (Hbasis 2 H2) as (_ & _ & ?). lia. }
  assert (Hrange : forall s, s ∈ spokes w -> 1 <= s < wheel_size w).
  { intros s Hs. apply Hsp in Hs. lia. }
  unfold generate_candidates. apply StronglySorted_app_2.
  - intros x1 x2 Hx1 Hx2.
    apply list_elem_of_In, filter_In in Hx1 as [Hx1 _]. apply list_elem_of_In in Hx1.
    destruct (Hbasis x1 Hx1) as (_ & _ & Hlt).
    apply wheel_loop_elem in Hx2 as [Hx2 _]; [|lia|].
    + assert (wheel_size w <= wheel_start w start); [|lia].
      unfold wheel_start.
      assert (0 <= (start - 1) / wheel_size w) by (apply Z.div_pos; lia). nia.
    + intros s Hs. apply Hrange in Hs. lia.
  - by apply filter_sorted.
  - by apply wheel_loop_sorted.
Qed.

(** X11: for a supported wheel, [generate_candidates(start, end)] yields
    exactly the basis primes of the range and, above the first wheel
    boundary at or after [start], the integers of the range that no basis
    prime divides (for a decimal-aware wheel only those ending in 1, 3, 7
    or 9). *)
Theorem candidates_spec size aware w start end_ x :
  init size aware = Ok w ->
  x ∈ generate_candidates w start end_ <->
  start <= x <= end_ /\
  (x ∈ basis_primes w \/
   (wheel_start w start < x /\ unsieved (basis_primes w) x /\
    (aware = false \/ x mod 10 ∈ [1; 3; 7; 9]))).
Proof. exact (candidates_elem size aware w start end_ x). Qed.

(** X12: from a start of at least 1, [generate_candidates] yields its
    candidates in strictly ascending order, so none twice. *)
Theorem candidates_sorted size aware w start end_ :
  init size aware = Ok w -> 1 <= start ->
  StronglySorted Z.lt (generate_candidates w start end_).
Proof. exact (candidates_ordered size aware w start end_). Qed.

Lemma candidates_spec_witness :
  exists w, init 30 true = Ok w /\
    (37 ∈ generate_candidates w 2 50 <->
     2 <= 37 <= 50 /\
     (37 ∈ basis_primes w \/
      (wheel_start w 2 < 37 /\ unsieved (basis_primes w) 37 /\
       (true = false \/ 37 mod 10 ∈ [1; 3; 7; 9])))).
Proof.
  eexists. split; [reflexivity|]. apply (candidates_spec 30 true _ 2 50 37 eq_refl).
Defined.

Lemma candidates_sorted_witness :
  exists w, init 30 true = Ok w /\ StronglySorted Z.lt (generate_candidates w 2 50).
Proof.
  eexists. split; [reflexivity|].
  apply (candidates_sorted 30 true _ 2 50 eq_refl). lia.
Defined.

End CandidateFacts.

Module SieveSpec.
Import Wheel WheelFacts SieveFacts CandidateFacts Predicates.

Lemma prime_divisor_exists d : 2 <= d -> exists p, prime p /\ (p | d).
Proof.
  intros Hd. remember (Z.to_nat d) as n eqn:Hn. revert d Hd Hn.
  induction n as [n IH] using lt_wf_ind. intros d Hd ->.
  destruct (prime_dec d) as [Hp | Hnp]; [exists d; split; [done | apply Z.divide_refl]|].
  destruct (not_prime_divide d ltac:(lia) Hnp) as (e & He & Hdiv).
  destruct (IH (Z.to_nat e) ltac:(lia) e ltac:(lia) eq_refl) as (p & Hp & Hpe).
  exists p. split; [done|]. by eapply Z.divide_trans.
Qed.

(** A trial loop that stops at the first divisor whose square exceeds
    the number tests every smaller one, the divisors being ascending. *)
Lemma survives_spec x ps :
  StronglySorted Z.lt ps -> (forall p, p ∈ ps -> 0 <= p) ->
  survives x ps = true <-> forall p, p ∈ ps -> p * p <= x -> x mod p <> 0.
Proof.
  induction 1 as [|p rest Hrest IH Hall]; intros Hpos; simpl.
  - split; [|done]. intros _ p Hp. inversion Hp.
  - rewrite Forall_forall in Hall.
    assert (Hp0 : 0 <= p) by (apply Hpos; left).
    destruct (Z.ltb_spec x (p * p)) as [Hlt | Hge].
    + split; [|done]. intros _ p' Hp' Hsq.
      apply elem_of_cons in Hp' as [-> | Hp']; [lia|]. apply Hall in Hp'. nia.
    + destruct (Z.eqb_spec (x mod p) 0) as [H0 | Hne].
      * split; [done|]. intros H. exfalso. apply (H p); [left | lia | done].
      * rewrite IH by (intros p' Hp'; apply Hpos; by right). split.
        -- intros H p' Hp' Hsq. apply elem_of_cons in Hp' as [-> | Hp']; [done | auto].
        -- intros H p' Hp'. apply H. by right.
Qed.

Lemma trial_survives n cs : trial n cs = survives n cs.
Proof. induction cs as [|c cs IH]; simpl; [done|]. by rewrite IH. Qed.

(** Trial division by the primes up to the square root decides
    primality. *)
Lemma survives_small_primes x limit :
  2 <= x -> x <= limit -> 
  survives x (_get_small_primes (Z.sqrt limit + 1)) = true <-> prime x.
Proof.
  intros Hx Hl. destruct (small_primes_char (Z.sqrt limit + 1)) as [Hsorted Hmem].
  rewrite survives_spec; [|done|].
  2:{ intros p Hp. apply Hmem in Hp as [Hp _]. pose proof (prime_ge_2 _ Hp). lia. }
  rewrite prime_no_small_divisor. split.
  - intros H. split; [done|]. intros d Hd Hsq Hdiv.
    destruct (prime_divisor_exists d Hd) as (p & Hp & Hpd).
    pose proof (prime_ge_2 _ Hp) as Hp2.
    assert (Hple : p <= d) by (apply Z.divide_pos_le; [lia | done]).
    apply (H p).
    + apply Hmem. split; [done|].
      assert (d <= Z.sqrt x) by (apply Z.sqrt_le_square; lia).
      assert (Z.sqrt x <= Z.sqrt limit) by (apply Z.sqrt_le_mono; lia). lia.
    + nia.
    + apply Z.mod_divide; [lia|]. by eapply Z.divide_trans.
  - intros [_ H] p Hp Hsq Hmod. apply Hmem in Hp as [Hp _].
    pose proof (prime_ge_2 _ Hp). apply (H p); [lia | done |].
    apply Z.mod_divide; [lia | done].
Qed.

(** A prime above 5 ends in 1, 3, 7 or 9. *)
Lemma prime_last_digit x : prime x -> 5 < x -> x mod 10 ∈ [1; 3; 7; 9].
Proof.
  intros Hp Hx.
  assert (H2 : x mod 2 <> 0).
  { intros H. apply Z.mod_divide in H; [|lia].
    destruct (prime_divisors _ Hp _ H) as [? | [? | [? | ?]]]; lia. }
  assert (H5 : x mod 5 <> 0).
  { intros H. apply Z.mod_divide in H; [|lia].
    destruct (prime_divisors _ Hp _ H) as [? | [? | [? | ?]]]; lia. }
  pose proof (Z.mod_pos_bound x 10 ltac:(lia)) as Hb.
  pose proof (Z.div_mod x 10 ltac:(lia)) as Hd.
  pose proof (Z.div_mod x 2 ltac:(lia)) as Hd2.
  pose proof (Z.div_mod x 5 ltac:(lia)) as Hd5.
  pose proof (Z.mod_pos_bound x 2 ltac:(lia)).
  pose proof (Z.mod_pos_bound x 5 ltac:(lia)).
  assert (Hc : x mod 10 = 1 \/ x mod 10 = 3 \/ x mod 10 = 7 \/ x mod 10 = 9) by lia.
  destruct Hc as [-> | [-> | [-> | ->]]];
    repeat first [apply list_elem_of_here | apply list_elem_of_further].
Qed.

(** A prime that is not a basis prime is not a multiple of one. *)
Lemma prime_unsieved basis x :
  (forall p, p ∈ basis -> prime p) -> prime x -> x ∉ basis -> unsieved basis x.
Proof.
  intros Hb Hx Hnot p Hp Hmod. pose proof (prime_ge_2 _ (Hb p Hp)).
  pose proof (prime_ge_2 _ Hx).
  apply Z.mod_divide in Hmod; [|lia].
  destruct (prime_divisors _ Hx _ Hmod) as [? | [? | [? | ?]]]; try lia.
  subst. done.
Qed.

(** On a range of fewer than 10000 integers [sieve] returns, in ascending
    order, the primes of the range that are basis primes or lie above the
    first wheel boundary at or after [max(2, start)]: it returns no
    composite, and it misses exactly the other primes of the range. *)
Lemma sieve_short_char size aware w start end_ :
  init size aware = Ok w -> end_ - start < 10000 ->
  StronglySorted Z.lt (sieve w start end_) /\
  forall x, x ∈ sieve w start end_ <->
    prime x /\ start <= x <= end_ /\
    (x ∈ basis_primes w \/ wheel_start w (Z.max 2 start) < x).
Proof.
  intros Hinit Hshort. unfold sieve.
  destruct (Z.ltb_spec end_ 2) as [Hlt | Hge].
  { split; [constructor|]. intros x. split; [intros H; inversion H|].
    intros (Hp & Hr & _). pose proof (prime_ge_2 _ Hp). lia. }
  destruct (Z.ltb_spec (end_ - start) 10000); [|lia].
  unfold _simple_sieve, int_sqrt. split.
  { apply filter_sorted. apply (candidates_ordered size aware); [done | lia]. }
  intros x.
  rewrite list_elem_of_In, filter_In, <- list_elem_of_In.
  rewrite (candidates_elem size aware w _ _ _ Hinit).
  destruct (wheel_facts _ _ _ Hinit) as (Hsz & _ & _ & Hb & _ & _).
  destruct (basis_facts _ _ Hb) as (_ & H2 & Hbasis).
  assert (Hws : wheel_size w <= wheel_start w (Z.max 2 start)).
  { unfold wheel_start. rewrite Hsz.
    destruct (Hbasis 2 H2) as (_ & _ & ?).
    assert (0 <= (Z.max 2 start - 1) / size) by (apply Z.div_pos; lia). nia. }
  split.
  - intros [[Hr Hc] Hs].
    assert (Hp : prime x) by (apply (survives_small_primes x end_); [lia | lia | done]).
    split; [done|]. split; [lia|]. destruct Hc as [Hc | (Hc & _)]; auto.
  - intros (Hp & Hr & Hc). pose proof (prime_ge_2 _ Hp).
    split; [|apply (survives_small_primes x end_); [lia | lia | done]].
    split; [lia|]. destruct Hc as [Hc | Hc]; [by left|].
    right. split; [done|]. split.
    + apply prime_unsieved; [intros p Hpb; by apply Hbasis | done |].
      intros Hin. destruct (Hbasis x Hin) as (_ & _ & ?). lia.
    + right. apply prime_last_digit; [done|].
      destruct (Hbasis 2 H2) as (_ & [c Hc2] & ?).
      assert (6 <= size); [|lia].
      apply basis_lookup in Hb.
      repeat (apply elem_of_cons in Hb as [[= -> _] | Hb]; [lia|]). inversion Hb.
Qed.


Lemma wheel_start_2 size aware w :
  init size aware = Ok w -> wheel_start w 2 = size /\ 6 <= size.
Proof.
  intros Hinit. destruct (wheel_facts _ _ _ Hinit) as (Hsz & _ & _ & Hb & _ & _).
  unfold wheel_start. rewrite Hsz. apply basis_lookup in Hb.
  repeat (apply elem_of_cons in Hb as [[= -> _] | Hb]; [by vm_compute|]).
  inversion Hb.
Qed.

(** What the module-level [is_prime_wheel] computes for a supported wheel
    size: besides the basis primes, it divides by the integers above the
    wheel size that no basis prime divides and that end in 1, 3, 7 or 9. *)
Lemma is_prime_wheel_spec size w n :
  init size true = Ok w ->
  (exists b, is_prime_wheel n size = Ok b) /\
  (is_prime_wheel n size = Ok true <->
   2 <= n /\
   (n ∈ basis_primes w \/
    (unsieved (basis_primes w) n /\
     forall c, size < c -> c * c <= n -> unsieved (basis_primes w) c ->
               c mod 10 ∈ [1; 3; 7; 9] -> n mod c <> 0))).
Proof.
  intros Hinit. unfold is_prime_wheel.
  destruct (Z.ltb_spec n 2) as [Hlt | Hge].
  { split; [by eexists|]. split; [done | lia]. }
  rewrite Hinit. simpl.
  destruct (decide (n ∈ basis_primes w)) as [Hin | Hnin].
  { rewrite (bool_decide_eq_true_2 _ Hin). split; [by eexists|].
    split; [intros _; split; [done | by left] | done]. }
  rewrite (bool_decide_eq_false_2 _ Hnin).
  destruct (existsb (fun p => n mod p =? 0) (basis_primes w)) eqn:Hex.
  { split; [by eexists|]. split; [done|]. intros [_ [Hin | [Hu _]]]; [done|].
    apply existsb_exists in Hex as (p & Hp & Hmod).
    apply list_elem_of_In in Hp. apply Z.eqb_eq in Hmod. by destruct (Hu p Hp). }
  split; [by eexists|].
  assert (Hu : unsieved (basis_primes w) n).
  { intros p Hp Hmod. apply not_true_iff_false in Hex. apply Hex.
    apply existsb_exists. exists p. split; [by apply list_elem_of_In|].
    by apply Z.eqb_eq. }
  destruct (wheel_start_2 _ _ _ Hinit) as [Hws Hsize].
  assert (Htrial : trial n (generate_candidates w 2 (int_sqrt n + 1)) = true <->
            forall c, c ∈ generate_candidates w 2 (int_sqrt n + 1) ->
                      c * c <= n -> n mod c <> 0).
  { rewrite trial_survives. apply survives_spec.
    - by apply (candidates_ordered size true).
    - intros c Hc. apply (candidates_elem size true w _ _ _ Hinit) in Hc. lia. }
  split.
  - intros [= Ht]. split; [done|]. right. split; [done|].
    intros c Hc Hsq Hcu Hd. apply Htrial; [done | | done].
    apply (candidates_elem size true w _ _ _ Hinit).
    assert (c <= Z.sqrt n) by (apply Z.sqrt_le_square; lia).
    unfold int_sqrt. split; [lia|]. right. rewrite Hws. auto.
  - intros [_ [Hin | [_ Hall]]]; [done|]. f_equal. apply Htrial.
    intros c Hc Hsq.
    apply (candidates_elem size true w _ _ _ Hinit) in Hc as [Hr [Hb | (Hgt & Hcu & Hd)]].
    + by apply Hu.
    + rewrite Hws in Hgt. destruct Hd as [Hd | Hd]; [done|]. by apply Hall.
Qed.

(** X14: the module-level [is_prime_wheel] never rejects a prime below
    2^52 (where its floating-point square root is exact), for every
    supported wheel size. *)
Theorem is_prime_wheel_accepts_primes size w n :
  init size true = Ok w -> n < 2 ^ 52 -> prime n ->
  is_prime_wheel n size = Ok true.
Proof.
  intros Hinit _ Hp. pose proof (prime_ge_2 _ Hp) as Hn.
  apply (is_prime_wheel_spec size w n Hinit). split; [done|].
  destruct (wheel_facts _ _ _ Hinit) as (_ & _ & _ & Hb & _ & _).
  destruct (basis_facts _ _ Hb) as (_ & _ & Hbasis).
  destruct (decide (n ∈ basis_primes w)) as [Hin | Hnin]; [by left|].
  right. split.
  - apply prime_unsieved; [intros p Hpb; by apply Hbasis | done | done].
  - intros c Hc Hsq _ _ Hmod.
    destruct (wheel_start_2 _ _ _ Hinit) as [_ Hsize].
    apply Z.mod_divide in Hmod; [|lia].
    destruct (prime_divisors _ Hp _ Hmod) as [? | [? | [? | ?]]]; nia.
Qed.

(** X15: below the square of the first integer after the wheel size,
    [is_prime_wheel] only tests the basis primes: it accepts an integer
    from 2 on exactly when it is a basis prime or no basis prime divides
    it. *)
Theorem is_prime_wheel_below_square size w n :
  init size true = Ok w -> n < (size + 1) * (size + 1) ->
  is_prime_wheel n size = Ok true <->
  2 <= n /\ (n ∈ basis_primes w \/ unsieved (basis_primes w) n).
Proof.
  intros Hinit Hn. rewrite (proj2 (is_prime_wheel_spec size w n Hinit)).
  destruct (wheel_start_2 _ _ _ Hinit) as [_ Hsize].
  split.
  - intros [H2 [Hin | [Hu _]]]; auto.
  - intros [H2 [Hin | Hu]]; [auto|]. split; [done|]. right. split; [done|].
    intros c Hc Hsq. nia.
Qed.

(** X13: for a supported wheel, a range shorter than 10000 and an end
    below 2^52 (where the floating-point square root is exact), [sieve]
    returns, in ascending order, exactly the primes of the range that are
    basis primes or lie above the first wheel boundary at or after
    [max(2, start)]: no composite, and none of the other primes. *)
Theorem sieve_short_spec size aware w start end_ :
  init size aware = Ok w -> end_ - start < 10000 -> end_ < 2 ^ 52 ->
  StronglySorted Z.lt (sieve w start end_) /\
  forall x, x ∈ sieve w start end_ <->
    prime x /\ start <= x <= end_ /\
    (x ∈ basis_primes w \/ wheel_start w (Z.max 2 start) < x).
Proof.
  intros Hinit Hshort _. exact (sieve_short_char size aware w start end_ Hinit Hshort).
Qed.

Lemma sieve_short_spec_witness :
  exists w, init 30 true = Ok w /\
    (StronglySorted Z.lt (sieve w 2 50) /\
     forall x, x ∈ sieve w 2 50 <->
       prime x /\ 2 <= x <= 50 /\
       (x ∈ basis_primes w \/ wheel_start w (Z.max 2 2) < x)).
Proof.
  eexists. split; [reflexivity|].
  apply (sieve_short_spec 30 true _ 2 50 eq_refl); [lia | reflexivity].
Defined.

Lemma is_prime_wheel_accepts_primes_witness : is_prime_wheel 7 30 = Ok true.
Proof.
  apply (is_prime_wheel_accepts_primes 30 _ 7 eq_refl); [reflexivity|].
  apply prime_of_check; [lia | reflexivity].
Defined.

Lemma is_prime_wheel_below_square_witness :
  exists w, init 30 true = Ok w /\
    (is_prime_wheel 77 30 = Ok true <->
     2 <= 77 /\ (77 ∈ basis_primes w \/ unsieved (basis_primes w) 77)).
Proof.
  eexists. split; [reflexivity|].
  apply (is_prime_wheel_below_square 30 _ 77 eq_refl). lia.
Defined.

End SieveSpec.

(* ===================================================================== *)
(** ** The segmented sieve *)
(* ===================================================================== *)

Module SegmentFacts.
Import Wheel WheelFacts SieveFacts CandidateFacts SieveSpec Predicates.

Lemma first_multiple_le p i cs j c :
  cs !! j = Some c -> proper_multiple c p = true ->
  (i <= first_multiple p i cs <= i + j)%nat.
Proof.
  revert i j. induction cs as [|c' cs IH]; intros i j Hj Hm; [done|].
  simpl. fold (proper_multiple c' p).
  destruct (proper_multiple c' p) eqn:Hc'; [lia|].
  destruct j as [|j]; simpl in Hj.
  - injection Hj as ->. congruence.
  - specialize (IH (S i) j Hj Hm). lia.
Qed.

(** Conditional clearing of flags over a list of indices. *)
Lemma clear_lookup (cond : nat -> bool) (idx : list nat) (arr : list bool) (n : nat) :
  default false
    (foldl (fun acc i => if cond i then <[i := false]> acc else acc) arr idx !! n) = true
  <-> default false (arr !! n) = true /\ forall i, i ∈ idx -> cond i = true -> i <> n.
Proof.
  revert arr. induction idx as [|i idx IH]; intros arr; simpl.
  - split; [intros H; split; [done|] | by intros [H _]].
    intros i Hi. inversion Hi.
  - rewrite IH. split.
    + intros [Hn Hidx]. destruct (cond i) eqn:Hc.
      * destruct (decide (i = n)) as [<- | Hne].
        -- destruct (decide (i < length arr)%nat).
           ++ by rewrite list_lookup_insert_eq in Hn.
           ++ rewrite list_insert_ge in Hn by lia.
              rewrite (lookup_ge_None_2 arr) in Hn by lia. done.
        -- rewrite list_lookup_insert_ne in Hn by done. split; [done|].
           intros i' Hi'. apply elem_of_cons in Hi' as [-> | Hi']; [done | auto].
      * split; [done|]. intros i' Hi' Hc'.
        apply elem_of_cons in Hi' as [-> | Hi']; [congruence | auto].
    + intros [Hn Hidx]. split.
      * destruct (cond i) eqn:Hc; [|done].
        rewrite list_lookup_insert_ne; [done|]. apply Hidx; [left | done].
      * intros i' Hi'. apply Hidx. by right.
Qed.

Lemma clear_length (cond : nat -> bool) (idx : list nat) (arr : list bool) :
  length (foldl (fun acc i => if cond i then <[i := false]> acc else acc) arr idx)
  = length arr.
Proof.
  revert arr. induction idx as [|i idx IH]; intros arr; simpl; [done|].
  rewrite IH. destruct (cond i); [apply length_insert | done].
Qed.

Lemma mark_length cs arr p : length (mark cs arr p) = length arr.
Proof. unfold mark. apply clear_length. Qed.

(** One marking pass clears the flags of the proper multiples of [p],
    wherever the pass starts. *)
Lemma mark_lookup cs arr p n c :
  cs !! n = Some c ->
  default false (mark cs arr p !! n) = true
  <-> default false (arr !! n) = true /\ proper_multiple c p = false.
Proof.
  intros Hc. unfold mark.
  rewrite (clear_lookup (fun i => (default 0 (cs !! i) mod p =? 0)
                                  && negb (default 0 (cs !! i) =? p))).
  assert (Hlen : (n < length cs)%nat) by (by eapply lookup_lt_Some).
  split.
  - intros [Ha Hno]. split; [done|].
    destruct (proper_multiple c p) eqn:Hm; [|done]. exfalso.
    pose proof (first_multiple_le p 0 cs n c Hc Hm) as Hfm.
    apply (Hno n); [|by rewrite Hc|done].
    apply elem_of_seq. lia.
  - intros [Ha Hm]. split; [done|]. intros i Hi Hcond ->.
    rewrite Hc in Hcond. simpl in Hcond. unfold proper_multiple in Hm. congruence.
Qed.

Lemma marks_lookup cs sp arr n c :
  cs !! n = Some c ->
  default false (foldl (mark cs) arr sp !! n) = true
  <-> default false (arr !! n) = true /\
      forall p, p ∈ sp -> proper_multiple c p = false.
Proof.
  intros Hc. revert arr. induction sp as [|p sp IH]; intros arr; simpl.
  - split; [intros H; split; [done|] | by intros [H _]].
    intros p Hp. inversion Hp.
  - rewrite IH, (mark_lookup cs arr p n c Hc). split.
    + intros [[Ha Hp] Hsp]. split; [done|]. intros p' Hp'.
      apply elem_of_cons in Hp' as [-> | Hp']; [done | auto].
    + intros [Ha Hsp]. split; [split; [done|]; apply Hsp; left|].
      intros p' Hp'. apply Hsp. by right.
Qed.

Lemma omap_ext_in {A B} (f g : A -> option B) (l : list A) :
  (forall x, x ∈ l -> f x = g x) -> omap f l = omap g l.
Proof.
  induction l as [|a l IH]; intros H; [done|]. csimpl.
  rewrite (H a) by left. rewrite IH; [done|]. intros x Hx. apply H. by right.
Qed.

(** Collecting the flagged entries of a list is filtering it. *)
Lemma collect_filter (f : Z -> bool) (g : nat -> bool) (l : list Z) :
  (forall i x, l !! i = Some x -> g i = f x) ->
  omap (fun i => if g i then l !! i else None) (seq 0 (length l)) = List.filter f l.
Proof.
  induction l as [|x l IH] using rev_ind; intros Hg; [done|].
  rewrite length_app. simpl. rewrite Nat.add_1_r, seq_S, omap_app, List.filter_app.
  simpl. f_equal.
  - rewrite <- IH.
    + apply omap_ext_in. intros i Hi. apply elem_of_seq in Hi.
      rewrite lookup_app_l by lia. done.
    + intros i y Hi. apply Hg. rewrite lookup_app_l; [done|]. by eapply lookup_lt_Some.
  - csimpl. rewrite (Hg (length l) x).
    + rewrite list_lookup_middle by done. by destruct (f x).
    + by rewrite list_lookup_middle.
Qed.

(** A segment keeps the candidates that no small prime properly divides. *)
Lemma sieve_segment_filter w sp cur seg_end :
  sieve_segment w sp cur seg_end
  = List.filter (fun c => forallb (fun p => negb (proper_multiple c p)) sp)
      (generate_candidates w cur seg_end).
Proof.
  unfold sieve_segment. apply collect_filter. intros i x Hi.
  apply eq_true_iff_eq.
  rewrite (marks_lookup _ sp _ i x Hi), forallb_forall.
  rewrite lookup_replicate_2 by (by eapply lookup_lt_Some). simpl.
  split.
  - intros [_ H] p Hp. apply list_elem_of_In in Hp. by rewrite (H p Hp).
  - intros H. split; [done|]. intros p Hp. apply list_elem_of_In in Hp.
    apply H in Hp. by destruct (proper_multiple x p).
Qed.

Lemma segment_loop_elem w sp end_ size fuel cur x :
  0 <= size -> (Z.to_nat (end_ - cur + 1) <= fuel)%nat ->
  x ∈ segment_loop fuel w sp end_ size cur <->
  exists k, 0 <= k /\ cur + k * (size + 1) <= end_ /\
    x ∈ sieve_segment w sp (cur + k * (size + 1))
          (Z.min (cur + k * (size + 1) + size) end_).
Proof.
  intros Hsize. revert cur. induction fuel as [|fuel IH]; intros cur Hfuel; simpl.
  - split; [intros H; inversion H|]. intros (k & Hk & Hle & _). nia.
  - destruct (Z.leb_spec cur end_) as [Hle | Hgt].
    2:{ split; [intros H; inversion H|]. intros (k & Hk & Hle & _). nia. }
    rewrite elem_of_app. split.
    + intros [Hx | Hx].
      * exists 0. rewrite Z.mul_0_l, Z.add_0_r. done.
      * destruct (Z.min_spec (cur + size) end_) as [[Hm Heq] | [Hm Heq]];
          rewrite Heq in Hx.
        -- apply IH in Hx as (k & Hk & Hle' & Hx); [|lia].
           exists (k + 1). split; [lia|].
           replace (cur + (k + 1) * (size + 1)) with (cur + size + 1 + k * (size + 1)) by lia.
           done.
        -- destruct fuel; simpl in Hx; [inversion Hx|].
           destruct (Z.leb_spec (end_ + 1) end_); [lia | inversion Hx].
    + intros (k & Hk & Hle' & Hx).
      destruct (decide (k = 0)) as [-> | Hk0].
      * left. by rewrite Z.mul_0_l, Z.add_0_r in Hx.
      * right. destruct (Z.min_spec (cur + size) end_) as [[Hm Heq] | [Hm Heq]];
          rewrite Heq; [|nia].
        apply IH; [lia|]. exists (k - 1). split; [lia|].
        replace (cur + size + 1 + (k - 1) * (size + 1)) with (cur + k * (size + 1)) by lia.
        done.
Qed.

(** Among the integers from 2 to [end], the primes are those that no
    prime up to the square root of [end] properly divides. *)
Lemma unmarked_prime x end_ :
  2 <= x <= end_ ->
  forallb (fun p => negb (proper_multiple x p)) (_get_small_primes (Z.sqrt end_ + 1)) = true
  <-> prime x.
Proof.
  intros Hx. destruct (small_primes_char (Z.sqrt end_ + 1)) as [_ Hmem].
  rewrite forallb_forall. split.
  - intros H. apply prime_no_small_divisor. split; [lia|]. intros d Hd Hsq Hdiv.
    destruct (prime_divisor_exists d Hd) as (p & Hp & Hpd).
    pose proof (prime_ge_2 _ Hp) as Hp2.
    assert (Hple : p <= d) by (apply Z.divide_pos_le; [lia | done]).
    assert (Hin : p ∈ _get_small_primes (Z.sqrt end_ + 1)).
    { apply Hmem. split; [done|].
      assert (d <= Z.sqrt x) by (apply Z.sqrt_le_square; lia).
      assert (Z.sqrt x <= Z.sqrt end_) by (apply Z.sqrt_le_mono; lia). lia. }
    apply list_elem_of_In, H in Hin. unfold proper_multiple in Hin.
    assert (Hmod : x mod p = 0).
    { apply Z.mod_divide; [lia|]. by eapply Z.divide_trans. }
    rewrite Hmod in Hin. simpl in Hin.
    destruct (Z.eqb_spec x p); [nia | done].
  - intros Hp p Hin. apply list_elem_of_In, Hmem in Hin as [Hpp _].
    pose proof (prime_ge_2 _ Hpp). unfold proper_multiple.
    destruct (Z.eqb_spec (x mod p) 0) as [Hmod | Hmod]; [|done].
    apply Z.mod_divide in Hmod; [|lia].
    destruct (prime_divisors _ Hp _ Hmod) as [? | [? | [? | ?]]]; lia.
Qed.

Lemma segment_start_bounds start x :
  start <= x ->
  0 <= (x - start) / 100001 /\
  start <= segment_start start x <= x /\ x <= segment_start start x + 100000.
Proof.
  intros H. unfold segment_start.
  pose proof (Z.div_pos (x - start) 100001 ltac:(lia) ltac:(lia)).
  pose proof (Z.mul_div_le (x - start) 100001 ltac:(lia)).
  pose proof (Z.mul_succ_div_gt (x - start) 100001 ltac:(lia)).
  lia.
Qed.

(** Membership in the result of [_segmented_sieve]. *)
Lemma segmented_sieve_elem size aware w start end_ x :
  init size aware = Ok w ->
  x ∈ _segmented_sieve w start end_ <->
  start <= x <= end_ /\
  x ∈ generate_candidates w (segment_start start x)
        (Z.min (segment_start start x + 100000) end_) /\
  forallb (fun p => negb (proper_multiple x p)) (_get_small_primes (Z.sqrt end_ + 1)) = true.
Proof.
  intros Hinit. unfold _segmented_sieve, int_sqrt.
  rewrite segment_loop_elem by lia. split.
  - intros (k & Hk & Hle & Hx). rewrite sieve_segment_filter in Hx.
    apply list_elem_of_In, filter_In in Hx as [Hx Hs]. apply list_elem_of_In in Hx.
    pose proof Hx as Hx'. apply (candidates_elem size aware w _ _ _ Hinit) in Hx' as [Hr _].
    assert (Hk' : (x - start) / 100001 = k).
    { symmetry. apply (Z.div_unique _ _ k (x - start - k * 100001)); lia. }
    unfold segment_start. rewrite Hk'.
    replace (100000 + 1) with 100001 in * by lia.
    split; [lia|]. split; [done|]. done.
  - intros (Hr & Hx & Hs).
    destruct (segment_start_bounds start x ltac:(lia)) as (Hk & Hb & Hbc).
    exists ((x - start) / 100001). unfold segment_start in *.
    replace (100000 + 1) with 100001 by lia.
    split; [done|]. split; [lia|].
    rewrite sieve_segment_filter. apply list_elem_of_In, filter_In.
    split; [by apply list_elem_of_In | done].
Qed.

Lemma segment_loop_ge size aware w sp end_ fuel cur x :
  init size aware = Ok w ->
  x ∈ segment_loop fuel w sp end_ 100000 cur -> cur <= x.
Proof.
  intros Hinit. revert cur. induction fuel as [|fuel IH]; intros cur Hx; simpl in Hx.
  { inversion Hx. }
  destruct (Z.leb_spec cur end_); [|inversion Hx].
  apply elem_of_app in Hx as [Hx | Hx].
  - rewrite sieve_segment_filter in Hx.
    apply list_elem_of_In, filter_In in Hx as [Hx _]. apply list_elem_of_In in Hx.
    apply (candidates_elem size aware w _ _ _ Hinit) in Hx. lia.
  - apply IH in Hx. lia.
Qed.

Lemma segment_loop_sorted size aware w sp end_ fuel cur :
  init size aware = Ok w -> 1 <= cur ->
  StronglySorted Z.lt (segment_loop fuel w sp end_ 100000 cur).
Proof.
  intros Hinit. revert cur. induction fuel as [|fuel IH]; intros cur Hcur; simpl.
  { constructor. }
  destruct (Z.leb_spec cur end_) as [Hle | Hgt]; [|constructor].
  apply StronglySorted_app_2.
  - intros a b Ha Hb. rewrite sieve_segment_filter in Ha.
    apply list_elem_of_In, filter_In in Ha as [Ha _]. apply list_elem_of_In in Ha.
    apply (candidates_elem size aware w _ _ _ Hinit) in Ha as [Ha _].
    apply (segment_loop_ge size aware _ _ _ _ _ _ Hinit) in Hb. lia.
  - rewrite sieve_segment_filter. apply filter_sorted.
    by apply (candidates_ordered size aware).
  - apply IH. lia.
Qed.

Lemma wheel_start_ge size aware w c :
  init size aware = Ok w -> 1 <= c -> 6 <= size <= wheel_start w c.
Proof.
  intros Hinit Hc. destruct (wheel_facts _ _ _ Hinit) as (Hsz & _).
  destruct (wheel_start_2 _ _ _ Hinit) as [_ H6]. split; [done|].
  unfold wheel_start. rewrite Hsz.
  assert (0 <= (c - 1) / size) by (apply Z.div_pos; lia). nia.
Qed.

(** On a long range that starts at 1 or above, [sieve] returns in
    ascending order the primes of the range that are basis primes or lie
    above the first wheel boundary of their segment. *)
Lemma sieve_long_char size aware w start end_ :
  init size aware = Ok w -> 1 <= start -> 10000 <= end_ - start ->
  StronglySorted Z.lt (sieve w start end_) /\
  forall x, x ∈ sieve w start end_ <->
    prime x /\ start <= x <= end_ /\
    (x ∈ basis_primes w \/ wheel_start w (segment_start start x) < x).
Proof.
  intros Hinit Hstart Hlong. unfold sieve.
  destruct (Z.ltb_spec end_ 2); [lia|].
  destruct (Z.ltb_spec (end_ - start) 10000); [lia|].
  split. { by apply (segment_loop_sorted size aware). }
  intros x. rewrite (segmented_sieve_elem size aware w _ _ _ Hinit).
  destruct (wheel_facts _ _ _ Hinit) as (Hsz & _ & _ & Hb & _ & _).
  destruct (basis_facts _ _ Hb) as (_ & H2 & Hbasis).
  split.
  - intros (Hr & Hc & Hs).
    destruct (segment_start_bounds start x ltac:(lia)) as (Hk & Hsb & Hsc).
    destruct (wheel_start_ge size aware w (segment_start start x) Hinit ltac:(lia)).
    apply (candidates_elem size aware w _ _ _ Hinit) in Hc as [_ Hc].
    assert (Hx2 : 2 <= x).
    { destruct Hc as [Hc | (Hc & _)]; [|lia].
      apply Hbasis in Hc as (Hp & _). by apply prime_ge_2. }
    split; [by apply (proj1 (unmarked_prime x end_ ltac:(lia)))|]. split; [done|].
    destruct Hc as [Hc | (Hc & _)]; auto.
  - intros (Hp & Hr & Hc). pose proof (prime_ge_2 _ Hp).
    destruct (segment_start_bounds start x ltac:(lia)) as (Hk & Hsb & Hsc).
    destruct (wheel_start_ge size aware w (segment_start start x) Hinit ltac:(lia)).
    split; [done|]. split; [|by apply (proj2 (unmarked_prime x end_ ltac:(lia)))].
    apply (candidates_elem size aware w _ _ _ Hinit). split; [lia|].
    destruct Hc as [Hc | Hc]; [by left|]. right. split; [done|].
    split.
    + apply prime_unsieved; [intros p Hpb; by apply Hbasis | done |].
      intros Hin. destruct (Hbasis x Hin) as (_ & _ & ?). lia.
    + right. apply prime_last_digit; [done | lia].
Qed.

(** X17: on a range of 10000 or more that starts at or below 0 (and above
    -100000) and ends below 2^52, [sieve] returns 1, which is no prime: the
    segmented path does not clamp the start to 2. *)
Theorem sieve_long_returns_one size aware w start end_ :
  init size aware = Ok w -> -100000 < start <= 0 -> 10000 <= end_ - start ->
  2 <= end_ < 2 ^ 52 ->
  1 ∈ sieve w start end_.
Proof.
  intros Hinit Hstart Hlong [Hend _]. unfold sieve.
  destruct (Z.ltb_spec end_ 2); [lia|].
  destruct (Z.ltb_spec (end_ - start) 10000); [lia|].
  apply (segmented_sieve_elem size aware w _ _ _ Hinit).
  destruct (wheel_facts _ _ _ Hinit) as (Hsz & _ & _ & Hb & _ & _).
  destruct (basis_facts _ _ Hb) as (_ & H2 & Hbasis).
  destruct (wheel_start_2 _ _ _ Hinit) as [_ H6].
  assert (Hseg : segment_start start 1 = start).
  { unfold segment_start. rewrite Z.div_small by lia. lia. }
  rewrite Hseg. split; [lia|]. split.
  - apply (candidates_elem size aware w _ _ _ Hinit). split; [lia|]. right.
    split; [|split].
    + unfold wheel_start. rewrite Hsz.
      assert ((start - 1) / size < 0) by (apply Z.div_lt_upper_bound; lia). nia.
    + intros p Hp Hmod. apply Hbasis in Hp as (Hp & _). pose proof (prime_ge_2 _ Hp).
      rewrite Z.mod_1_l in Hmod by lia. done.
    + right. by vm_compute; left.
  - apply forallb_forall. intros p Hp.
    destruct (small_primes_char (Z.sqrt end_ + 1)) as [_ Hmem].
    apply list_elem_of_In, Hmem in Hp as [Hp _]. pose proof (prime_ge_2 _ Hp).
    unfold proper_multiple. rewrite Z.mod_1_l by lia. done.
Qed.

(** X16: for a supported wheel and a range of 10000 or more that starts at
    1 or above and ends below 2^52 (where the floating-point square root
    is exact), [sieve] returns, in ascending order, exactly the primes of
    the range that are basis primes or lie above the first wheel boundary
    of their segment (segments start every 100001 integers from [start]). *)
Theorem sieve_long_spec size aware w start end_ :
  init size aware = Ok w -> 1 <= start -> 10000 <= end_ - start ->
  end_ < 2 ^ 52 ->
  StronglySorted Z.lt (sieve w start end_) /\
  forall x, x ∈ sieve w start end_ <->
    prime x /\ start <= x <= end_ /\
    (x ∈ basis_primes w \/ wheel_start w (segment_start start x) < x).
Proof.
  intros Hinit Hstart Hlong _.
  exact (sieve_long_char size aware w start end_ Hinit Hstart Hlong).
Qed.

Lemma sieve_long_spec_witness :
  exists w, init 30 true = Ok w /\
    (StronglySorted Z.lt (sieve w 1 10001) /\
     forall x, x ∈ sieve w 1 10001 <->
       prime x /\ 1 <= x <= 10001 /\
       (x ∈ basis_primes w \/ wheel_start w (segment_start 1 x) < x)).
Proof.
  eexists. split; [reflexivity|].
  apply (sieve_long_spec 30 true _ 1 10001 eq_refl); [lia | lia | reflexivity].
Defined.

Lemma sieve_long_returns_one_witness :
  exists w, init 30 true = Ok w /\ 1 ∈ sieve w 0 10000.
Proof.
  eexists. split; [reflexivity|].
  apply (sieve_long_returns_one 30 true _ 0 10000 eq_refl);
    [lia | lia | split; [lia | reflexivity]].
Defined.

End SegmentFacts.

(* ===================================================================== *)
(** ** The module-level [generate_primes] *)
(* ===================================================================== *)

Module GenerateFacts.
Import Wheel WheelFacts SieveFacts CandidateFacts SieveSpec SegmentFacts Predicates.

(** Whatever the bound, [sieve(2, limit)] is an ascending list of primes,
    each a basis prime or above the wheel size. *)
Lemma sieve_from_2 size aware w limit :
  init size aware = Ok w ->
  StronglySorted Z.lt (sieve w 2 limit) /\
  forall x, x ∈ sieve w 2 limit ->
    prime x /\ (x ∈ basis_primes w \/ size < x).
Proof.
  intros Hinit. destruct (Z_lt_le_dec (limit - 2) 10000) as [Hs | Hl].
  - destruct (sieve_short_char size aware w 2 limit Hinit Hs) as [Hsorted Hmem].
    split; [done|]. intros x Hx. apply Hmem in Hx as (Hp & Hr & Hc).
    split; [done|]. destruct Hc as [Hc | Hc]; [by left|]. right.
    destruct (wheel_start_2 _ _ _ Hinit) as [Hws _].
    change (Z.max 2 2) with 2 in Hc. lia.
  - destruct (sieve_long_char size aware w 2 limit Hinit ltac:(lia) Hl) as [Hsorted Hmem].
    split; [done|]. intros x Hx. apply Hmem in Hx as (Hp & Hr & Hc).
    split; [done|]. destruct Hc as [Hc | Hc]; [by left|]. right.
    destruct (segment_start_bounds 2 x ltac:(lia)) as (_ & Hb & _).
    destruct (wheel_start_ge size aware w (segment_start 2 x) Hinit ltac:(lia)). lia.
Qed.

Lemma primes_loop_inv wheel fuel n limit l :
  primes_loop fuel wheel n limit = Ok l ->
  exists limit', l = take (Z.to_nat n) (sieve wheel 2 limit') /\
                 n <= Z.of_nat (length (sieve wheel 2 limit')).
Proof.
  revert limit. induction fuel as [|fuel IH]; intros limit H; simpl in H; [done|].
  destruct (Z.ltb_spec (Z.of_nat (length (sieve wheel 2 limit))) n).
  - by apply IH in H.
  - injection H as <-. by exists limit.
Qed.

(** X18: whenever [generate_primes] returns, the list has [n] elements (none
    for [n <= 0]), is strictly ascending and holds only primes, each a basis
    prime of the wheel or above the wheel size: the primes between the
    basis and the wheel size (7 to 29 for the default wheel) never occur. *)
Theorem generate_primes_sound estimate fuel n size w l :
  init size true = Ok w ->
  generate_primes estimate fuel n size = Ok l ->
  length l = Z.to_nat n /\
  StronglySorted Z.lt l /\
  forall x, x ∈ l -> prime x /\ (x ∈ basis_primes w \/ size < x).
Proof.
  intros Hinit. unfold generate_primes.
  destruct (Z.leb_spec n 0) as [Hn | Hn].
  { intros [= <-]. split; [simpl; lia|]. split; [constructor|].
    intros x Hx. inversion Hx. }
  rewrite Hinit. simpl. intros H.
  apply primes_loop_inv in H as (limit & -> & Hlen).
  destruct (sieve_from_2 size true w limit Hinit) as [Hsorted Hmem].
  split; [apply length_take_le; lia|]. split.
  - rewrite <- (take_drop (Z.to_nat n) (sieve w 2 limit)) in Hsorted.
    by apply StronglySorted_app_1_l in Hsorted.
  - intros x Hx. apply Hmem. eapply elem_of_sublist; [done | apply sublist_take].
Qed.

(** X19: with the default wheel, [generate_primes(n)] for [n < 6] returns the
    first [n] entries of 2, 3, 5, 31, 37. *)
Theorem generate_primes_small estimate fuel n :
  (4 <= fuel)%nat -> n < 6 ->
  generate_primes estimate fuel n 30 = Ok (take (Z.to_nat n) [2; 3; 5; 31; 37]).
Proof.
  intros Hfuel Hn.
  destruct fuel as [|[|[|[|fuel]]]]; try lia.
  destruct (Z.leb_spec n 0) as [H0 | H0].
  { unfold generate_primes. destruct (Z.leb_spec n 0); [|lia].
    replace (Z.to_nat n) with 0%nat by lia. done. }
  assert (Hc : n = 1 \/ n = 2 \/ n = 3 \/ n = 4 \/ n = 5) by lia.
  destruct Hc as [-> | [-> | [-> | [-> | ->]]]]; by vm_compute.
Qed.

Lemma generate_primes_sound_witness :
  exists w l, init 30 true = Ok w /\ generate_primes 0 4 5 30 = Ok l /\
    length l = Z.to_nat 5 /\ StronglySorted Z.lt l /\
    forall x, x ∈ l -> prime x /\ (x ∈ basis_primes w \/ 30 < x).
Proof.
  eexists. eexists. split; [reflexivity|]. split; [by vm_compute|].
  apply (generate_primes_sound 0 4 5 30 _ _ eq_refl). by vm_compute.
Defined.

Lemma generate_primes_small_witness :
  generate_primes 0 4 4 30 = Ok (take (Z.to_nat 4) [2; 3; 5; 31; 37]).
Proof. apply (generate_primes_small 0 4 4); lia. Defined.

End GenerateFacts.

(* ===================================================================== *)
(** ** Miller-Rabin *)
(* ===================================================================== *)

Module MillerRabinFacts.
Import PrimeGen PrimeGenMore.

Lemma factor_twos_eq m :
  0 <= (factor_twos m).1 /\ Zpos m = 2 ^ (factor_twos m).1 * Zpos (factor_twos m).2.
Proof.
  induction m as [m IH | m IH |]; simpl; try (split; [lia | lia]).
  destruct (factor_twos m) as [r d]. simpl in *. destruct IH as (Hr & Heq).
  split; [lia|]. rewrite Z.pow_add_r by lia. rewrite Pos2Z.inj_xO, Heq. lia.
Qed.

(** Modulo a prime, 1 has the square roots 1 and -1 only. *)
Lemma sqrt_one_prime n x :
  prime n -> 0 <= x < n -> (x * x) mod n = 1 -> x = 1 \/ x = n - 1.
Proof.
  intros Hp Hx Hsq. pose proof (prime_ge_2 _ Hp).
  assert (Hdiv : (n | (x - 1) * (x + 1))).
  { exists ((x * x) / n). pose proof (Z.div_mod (x * x) n ltac:(lia)). lia. }
  destruct (prime_mult n Hp _ _ Hdiv) as [[q Hq] | [q Hq]].
  - assert (q = 0) by nia. left. lia.
  - assert (q = 1) by nia. right. lia.
Qed.

Lemma squarings_spec n k x :
  prime n -> 0 <= x < n ->
  x ^ (2 ^ (Z.of_nat k + 1)) mod n = 1 ->
  x = 1 \/ x = n - 1 \/ squarings k x n = true.
Proof.
  intros Hp. pose proof (prime_ge_2 _ Hp). revert x.
  induction k as [|k IH]; intros x Hx Hpow.
  - change (2 ^ (Z.of_nat 0 + 1)) with 2 in Hpow. rewrite Z.pow_2_r in Hpow.
    destruct (sqrt_one_prime n x Hp Hx Hpow); auto.
  - cbn [squarings]. rewrite pow_mod_spec by lia.
    change (Z.pos 2) with 2. rewrite Z.pow_2_r.
    assert (Hy : 0 <= (x * x) mod n < n) by (apply Z.mod_pos_bound; lia).
    destruct (Z.eqb_spec ((x * x) mod n) (n - 1)) as [Heq | Hne]; [auto|].
    assert (Hpow' : ((x * x) mod n) ^ (2 ^ (Z.of_nat k + 1)) mod n = 1).
    { rewrite Z.mod_pow_l. rewrite <- Z.pow_2_r, <- Z.pow_mul_r by lia.
      etrans; [|exact Hpow]. f_equal. f_equal.
      replace (Z.of_nat (S k) + 1) with (1 + (Z.of_nat k + 1)) by lia.
      rewrite (Z.pow_add_r 2 1) by lia. change (2 ^ 1) with 2. lia. }
    destruct (IH _ Hy Hpow') as [H1 | [H1 | H1]]; [|done|auto].
    destruct (sqrt_one_prime n x Hp Hx H1); auto.
Qed.

Lemma witness_loop_prime world n r d rounds c :
  prime n -> 3 < n -> 1 <= r -> n - 1 = 2 ^ r * Zpos d ->
  exists c', witness_loop world rounds r d n c = Ok (true, c').
Proof.
  intros Hp Hn Hr Heq. revert c. induction rounds as [|rounds IH]; intros c.
  { by exists c. }
  cbn [witness_loop]. unfold bind, randrange.
  set (a := 2 + entropy world (drawn c) mod (n - 1 - 2)).
  set (c1 := {| drawn := S (drawn c); ticks := ticks c |}).
  assert (Ha : 2 <= a <= n - 2).
  { unfold a. pose proof (Z.mod_pos_bound (entropy world (drawn c)) (n - 1 - 2)).
    assert (n <> 4).
    { intros ->. destruct Hp as [_ Hrel]. specialize (Hrel 2 ltac:(lia)).
      apply Zgcd_1_rel_prime in Hrel. by vm_compute in Hrel. }
    lia. }
  rewrite pow_mod_spec by lia.
  assert (Hx : 0 <= a ^ Z.pos d mod n < n) by (apply Z.mod_pos_bound; lia).
  assert (Hpow : (a ^ Z.pos d mod n) ^ (2 ^ (Z.of_nat (Z.to_nat (r - 1)) + 1)) mod n = 1).
  { rewrite Z.mod_pow_l. rewrite <- Z.pow_mul_r by lia.
    replace (Z.of_nat (Z.to_nat (r - 1)) + 1) with r by lia.
    replace (Z.pos d * 2 ^ r) with (n - 1) by lia.
    apply Stdlib.Zmod.ZmodInv.Z.fermat_nz; [by apply prime_alt|].
    rewrite Z.mod_small by lia. lia. }
  destruct (squarings_spec n _ _ Hp Hx Hpow) as [H1 | [H1 | H1]].
  - rewrite H1. simpl. apply IH.
  - rewrite H1, Z.eqb_refl, orb_true_r. apply IH.
  - rewrite H1. destruct (_ || _); apply IH.
Qed.

(** X20: [_miller_rabin] accepts every prime, whatever the number of rounds
    and whatever witnesses the random source hands out. *)
Theorem miller_rabin_accepts_primes world n rounds c :
  prime n -> exists c', _miller_rabin world n rounds c = Ok (true, c').
Proof.
  intros Hp. pose proof (prime_ge_2 _ Hp). unfold _miller_rabin.
  destruct (Z.ltb_spec n 2); [lia|].
  destruct (Z.eqb_spec n 2); [by exists c|].
  destruct (Z.eqb_spec n 3); [by exists c|]. simpl.
  destruct (Z.eqb_spec (n mod 2) 0) as [Heven | Hodd].
  { exfalso. apply Z.mod_divide in Heven; [|lia].
    destruct (prime_divisors _ Hp _ Heven) as [? | [? | [? | ?]]]; lia. }
  pose proof (factor_twos_eq (Z.to_pos (n - 1))) as [Hr Heq].
  assert (Hr1 : 1 <= (factor_twos (Z.to_pos (n - 1))).1).
  { destruct (Z.to_pos (n - 1)) as [m | m |] eqn:Hm.
    - exfalso. apply Hodd. assert (n - 1 = Z.pos m~1) by lia.
      replace n with (Z.pos m~1 + 1) by lia. rewrite Pos2Z.inj_xI.
      replace (2 * Z.pos m + 1 + 1) with ((Z.pos m + 1) * 2) by lia.
      apply Z.mod_mul. lia.
    - simpl. destruct (factor_twos m) as [r' d'] eqn:Hf. simpl.
      pose proof (factor_twos_eq m) as [Hr' _]. rewrite Hf in Hr'. simpl in Hr'. lia.
    - lia. }
  destruct (factor_twos (Z.to_pos (n - 1))) as [r d]. simpl in *.
  apply witness_loop_prime; [done | lia | done | lia].
Qed.

Lemma miller_rabin_accepts_primes_witness :
  exists c', _miller_rabin Sample.world 13 5 Sample.start = Ok (true, c').
Proof.
  apply (miller_rabin_accepts_primes Sample.world 13 5 Sample.start).
  apply CandidateFacts.prime_of_check; [lia | reflexivity].
Defined.

End MillerRabinFacts.

Module GeneratorFacts.
Import PrimeGen PrimeGenMore.

(** X23: [get_statistics] raises [AttributeError] for every generator: the
    wheel has no attribute [size]. *)
Theorem get_statistics_raises self :
  get_statistics self = Raise (AttributeError "ExtendedWheel" "size").
Proof. reflexivity. Qed.

Lemma shared_factor_mod g n x : (g | n) -> (g | x) -> (g | x mod n).
Proof.
  intros Hn Hx. destruct (Z.eq_dec n 0) as [-> | Hn0].
  - by rewrite Zmod_0_r.
  - rewrite Z.mod_eq by done. apply Z.divide_sub_r; [done|].
    by apply Z.divide_mul_l.
Qed.

Lemma shared_factor_not_unit g n x :
  1 < g -> 2 < n -> (g | n) -> (g | x) -> x <> 1 /\ x <> n - 1.
Proof.
  intros Hg Hn Hgn Hgx. split; intros ->.
  - apply Z.divide_1_r_nonneg in Hgx; lia.
  - assert (Hg1 : (g | 1)).
    { replace 1 with (n - (n - 1)) by lia. by apply Z.divide_sub_r. }
    apply Z.divide_1_r_nonneg in Hg1; lia.
Qed.

Lemma squarings_shared g n k x :
  1 < g -> 2 < n -> (g | n) -> (g | x) -> squarings k x n = false.
Proof.
  intros Hg Hn Hgn. revert x. induction k as [|k IH]; intros x Hgx; [done|].
  cbn [squarings]. rewrite pow_mod_spec by lia.
  assert (Hgy : (g | x ^ Z.pos 2 mod n)).
  { apply shared_factor_mod; [done|]. change (Z.pos 2) with 2.
    rewrite Z.pow_2_r. by apply Z.divide_mul_l. }
  destruct (shared_factor_not_unit g n _ Hg Hn Hgn Hgy) as [_ Hne].
  destruct (Z.eqb_spec (x ^ Z.pos 2 mod n) (n - 1)); [done|]. by apply IH.
Qed.

(** X21: an odd [n > 3] is rejected in the first round when the witness
    drawn there, [2 + e mod (n - 3)] for the next integer [e] of the random
    source, has a factor in common with [n]. *)
Theorem miller_rabin_rejects_shared_factor world n rounds c :
  3 < n -> n mod 2 = 1 -> 0 < rounds ->
  Z.gcd (2 + entropy world (drawn c) mod (n - 1 - 2)) n <> 1 ->
  _miller_rabin world n rounds c
  = Ok (false, {| drawn := S (drawn c); ticks := ticks c |}).
Proof.
  intros Hn Hodd Hrounds Hgcd. unfold _miller_rabin.
  destruct (Z.ltb_spec n 2); [lia|].
  destruct (Z.eqb_spec n 2); [lia|]. destruct (Z.eqb_spec n 3); [lia|]. simpl.
  rewrite Hodd. simpl.
  destruct (factor_twos (Z.to_pos (n - 1))) as [r d].
  destruct (Z.to_nat rounds) as [|rounds'] eqn:Hr; [lia|].
  cbn [witness_loop]. unfold bind, randrange.
  set (a := 2 + entropy world (drawn c) mod (n - 1 - 2)) in *.
  set (g := Z.gcd a n) in *.
  assert (Hg : 1 < g).
  { pose proof (Z.gcd_nonneg a n). fold g in H0.
    assert (g <> 0); [|lia]. unfold g. intros H1.
    apply Z.gcd_eq_0_r in H1. lia. }
  assert (Hgn : (g | n)) by apply Z.gcd_divide_r.
  assert (Hga : (g | a)) by apply Z.gcd_divide_l.
  rewrite pow_mod_spec by lia.
  assert (Hgx : (g | a ^ Z.pos d mod n)).
  { apply shared_factor_mod; [done|].
    replace (Z.pos d) with (Z.succ (Z.pos d - 1)) by lia.
    rewrite Z.pow_succ_r by lia. by apply Z.divide_mul_l. }
  destruct (shared_factor_not_unit g n _ Hg ltac:(lia) Hgn Hgx) as [H1 H2].
  destruct (Z.eqb_spec (a ^ Z.pos d mod n) 1); [done|].
  destruct (Z.eqb_spec (a ^ Z.pos d mod n) (n - 1)); [done|]. simpl.
  by rewrite (squarings_shared g n _ _ Hg ltac:(lia) Hgn Hgx).
Qed.

(** X22: with [rounds <= 0] the test draws nothing and accepts every odd
    [n > 3], prime or not. *)
Theorem miller_rabin_no_rounds world n rounds c :
  rounds <= 0 -> 3 < n -> n mod 2 = 1 ->
  _miller_rabin world n rounds c = Ok (true, c).
Proof.
  intros Hrounds Hn Hodd. unfold _miller_rabin.
  destruct (Z.ltb_spec n 2); [lia|].
  destruct (Z.eqb_spec n 2); [lia|]. destruct (Z.eqb_spec n 3); [lia|]. simpl.
  rewrite Hodd. simpl.
  destruct (factor_twos (Z.to_pos (n - 1))) as [r d].
  by replace (Z.to_nat rounds) with 0%nat by lia.
Qed.

Lemma miller_rabin_rejects_shared_factor_witness :
  _miller_rabin Sample.world 15 1 Sample.start
  = Ok (false, {| drawn := 1; ticks := 0 |}).
Proof.
  apply (miller_rabin_rejects_shared_factor Sample.world 15 1 Sample.start);
    by vm_compute.
Defined.

Lemma miller_rabin_no_rounds_witness :
  _miller_rabin Sample.world 9 0 Sample.start = Ok (true, Sample.start).
Proof. apply (miller_rabin_no_rounds Sample.world 9 0 Sample.start); by vm_compute. Defined.

End GeneratorFacts.

(* ===================================================================== *)
(** ** Reports, ranges and candidate ranking of [DecimalRivers] *)
(* ===================================================================== *)

Module RangeFacts.
Import Rivers WheelFacts SieveFacts.

Lemma is_prime_spec n : is_prime n = true <-> prime n.
Proof.
  unfold is_prime, int_sqrt.
  destruct (Z.ltb_spec n 2) as [Hlt | Hge].
  { split; [done|]. intros Hp. pose proof (prime_ge_2 _ Hp). lia. }
  destruct (Z.eqb_spec n 2) as [-> | Hn2].
  { split; [|done]. intros _. apply prime_2. }
  destruct (Z.eqb_spec (n mod 2) 0) as [Heven | Hodd].
  { split; [done|]. intros Hp. apply Z.mod_divide in Heven; [|lia].
    destruct (prime_divisors _ Hp _ Heven) as [? | [? | [? | ?]]]; lia. }
  rewrite forallb_forall, prime_no_small_divisor. split.
  - intros Hall. split; [done|]. intros d Hd Hsq Hdiv.
    assert (Hdodd : d mod 2 <> 0).
    { intros Hd2. apply Hodd. apply Z.mod_divide; [lia|].
      apply Z.mod_divide in Hd2; [|lia]. by eapply Z.divide_trans. }
    assert (Hin : d ∈ range_step 3 (Z.sqrt n + 1) 2).
    { apply elem_of_range_step; [lia|].
      assert (d <= Z.sqrt n) by (apply Z.sqrt_le_square; lia).
      assert (d <> 2) by (intros ->; done).
      split; [lia|].
      replace (d - 3) with (d + (-2) * 2 + 1) by lia.
      pose proof (Z.mod_pos_bound d 2 ltac:(lia)).
      rewrite <- Z.add_mod_idemp_l, Z.mod_add by lia.
      replace (d mod 2) with 1 by lia. done. }
    apply list_elem_of_In, Hall in Hin. apply Z.mod_divide in Hdiv; [|lia].
    rewrite Hdiv in Hin. done.
  - intros [_ Hno] i Hi. apply list_elem_of_In in Hi.
    apply (elem_of_range_step 3 _ 2 i ltac:(lia)) in Hi as [Hi _].
    destruct (Z.eqb_spec (n mod i) 0) as [Hdiv | Hdiv]; [|done]. exfalso.
    assert (Hi3 : 3 <= i) by apply Hi.
    apply Z.mod_divide in Hdiv; [|clear - Hi3; lia]. apply (Hno i); [lia| |done].
    assert (i <= Z.sqrt n) by lia.
    destruct (Z.sqrt_spec n ltac:(lia)) as [Hs _].
    etrans; [|exact Hs]. apply Z.mul_le_mono_nonneg; lia.
Qed.

(** X24: without a sieve function and for an end below 2^52 (where the
    floating-point square root of every tested number is exact),
    [analyze_prime_range(start, end)] analyses exactly the primes of the
    range, in ascending order. *)
Theorem analyze_prime_range_default start end_ :
  end_ < 2 ^ 52 ->
  StronglySorted Z.lt (prime_cache (analyze_prime_range start end_ None)) /\
  forall x, x ∈ prime_cache (analyze_prime_range start end_ None)
            <-> prime x /\ start <= x <= end_.
Proof.
  intros _. simpl. split.
  - apply filter_sorted, count_from_sorted.
  - intros x. rewrite list_elem_of_In, filter_In, <- list_elem_of_In.
    rewrite elem_of_range, is_prime_spec. intuition lia.
Qed.

Lemma analyze_prime_range_default_witness :
  StronglySorted Z.lt (prime_cache (analyze_prime_range 1 30 None)) /\
  forall x, x ∈ prime_cache (analyze_prime_range 1 30 None)
            <-> prime x /\ 1 <= x <= 30.
Proof. apply (analyze_prime_range_default 1 30). reflexivity. Defined.

End RangeFacts.

Module AnalysisFacts.
Import Rivers RiversFacts.

Lemma total_incr k (m : gmap Z Z) : total (incr k m) = total m + 1.
Proof.
  unfold incr. destruct (m !! k) as [v|] eqn:Hk; simpl.
  - rewrite <- (insert_delete_id m k v) at 2 by done.
    rewrite <- insert_delete_eq.
    rewrite !total_insert by apply lookup_delete_eq. lia.
  - rewrite total_insert by done. lia.
Qed.

(** X25: each call of [analyze_primes] adds to the total of the digit
    frequencies (the [total_primes_analyzed] of the report) the number of
    analysed values above 5: 2, 3 and 5 are not counted, and analysing a
    list twice counts it twice. *)
Theorem analyze_primes_total self primes :
  total (digit_frequencies (analyze_primes self primes))
  = total (digit_frequencies self)
    + Z.of_nat (length (List.filter (fun p => 5 <? p) primes)).
Proof.
  simpl. unfold count_endings. generalize (digit_frequencies self).
  induction primes as [|p primes IH]; intros freq; simpl; [lia|].
  rewrite IH. destruct (5 <? p); simpl length; [rewrite total_incr|]; lia.
Qed.

Lemma probabilities_counted (m : gmap Z Z) : counted m -> is_Some (probabilities m).
Proof.
  intros Hc. unfold probabilities.
  destruct (decide (m = ∅)) as [-> | Hne].
  - rewrite bool_decide_eq_true_2 by done. rewrite andb_false_r. eauto.
  - destruct (total_bounds m Hc) as (_ & _ & Hpos). specialize (Hpos Hne).
    destruct (Z.eqb_spec (total m) 0); [lia|]. simpl. eauto.
Qed.

Lemma count_transitions_counted primes (tm : gmap Z (gmap Z Z)) :
  map_Forall (fun _ tr => counted tr) tm ->
  map_Forall (fun _ tr => counted tr) (count_transitions primes tm).
Proof.
  revert tm. induction primes as [|p primes IH]; intros tm Htm; [done|].
  destruct primes as [|q primes]; [done|].
  change (count_transitions (p :: q :: primes) tm) with
    (count_transitions (q :: primes)
       (if (5 <? p) && (5 <? q) then
          <[p mod 10 := incr (q mod 10) (default ∅ (tm !! (p mod 10)))]> tm
        else tm)).
  apply IH. destruct ((5 <? p) && (5 <? q)); [|done].
  apply map_Forall_insert_2; [|done]. apply incr_counted.
  destruct (tm !! (p mod 10)) as [tr|] eqn:Htr; simpl.
  - by apply (Htm _ _ Htr).
  - apply map_Forall_empty.
Qed.

Lemma reachable_transitions self :
  reachable self -> map_Forall (fun _ tr => counted tr) (transition_matrix self).
Proof.
  induction 1 as [|self primes _ IH]; simpl.
  - apply map_Forall_empty.
  - by apply count_transitions_counted.
Qed.

(** X26: on every state an instance can reach, [_compile_analysis] (and so
    [analyze_primes], which ends with it) returns its report: no division
    by zero occurs, also when nothing above 5 has been analysed. *)
Theorem compile_analysis_returns self :
  reachable self ->
  exists report, _compile_analysis self = Some report /\
    report_total_primes_analyzed report = total (digit_frequencies self) /\
    dom (report_digit_probabilities report) = dom (digit_frequencies self) /\
    dom (report_transition_probabilities report) = dom (transition_matrix self).
Proof.
  intros Hr. unfold _compile_analysis.
  pose proof (reachable_counted self Hr) as Hc.
  pose proof (reachable_transitions self Hr) as Ht.
  destruct (probabilities_counted _ Hc) as [dp Hdp]. rewrite Hdp. simpl.
  rewrite bool_decide_eq_true_2.
  2:{ intros k tr Hk. apply probabilities_counted. by apply (Ht k). }
  simpl. eexists. split; [done|]. simpl. split; [done|]. split.
  - unfold probabilities in Hdp. destruct (_ && _); [done|].
    injection Hdp as <-. apply dom_fmap_L.
  - apply set_eq. intros k. rewrite !elem_of_dom, lookup_omap.
    destruct (transition_matrix self !! k) as [tr|] eqn:Hk; simpl.
    + split; [eauto|]. intros _. apply probabilities_counted. by apply (Ht k).
    + split; intros [? ?]; done.
Qed.

Lemma compile_analysis_returns_witness :
  exists report, _compile_analysis (analyze_primes init [2; 3; 5]) = Some report /\
    report_total_primes_analyzed report
      = total (digit_frequencies (analyze_primes init [2; 3; 5])) /\
    dom (report_digit_probabilities report)
      = dom (digit_frequencies (analyze_primes init [2; 3; 5])) /\
    dom (report_transition_probabilities report)
      = dom (transition_matrix (analyze_primes init [2; 3; 5])).
Proof.
  apply (compile_analysis_returns (analyze_primes init [2; 3; 5])).
  apply reach_analyze, reach_init.
Defined.

End AnalysisFacts.

Module OptimizeFacts.
Import Rivers.

Lemma insert_desc_perm x l : insert_desc x l ≡ₚ x :: l.
Proof.
  induction l as [|y l IH]; simpl; [done|].
  destruct (negb _); [|done]. rewrite IH. apply Permutation_swap.
Qed.

Lemma sort_desc_perm l : sort_desc l ≡ₚ l.
Proof.
  induction l as [|x l IH]; simpl; [done|].
  by rewrite insert_desc_perm, IH.
Qed.

Lemma insert_desc_sorted x l :
  StronglySorted (fun a b : Z * Q => (b.2 <= a.2)%Q) l ->
  StronglySorted (fun a b : Z * Q => (b.2 <= a.2)%Q) (insert_desc x l).
Proof.
  induction 1 as [|y l Hl IH Hy]; simpl.
  - repeat constructor.
  - destruct (Qle_bool y.2 x.2) eqn:Hle; simpl.
    + apply Qle_bool_iff in Hle. constructor; [by constructor|].
      constructor; [done|]. eapply Forall_impl; [exact Hy|].
      intros z Hz. simpl in *. by eapply Qle_trans.
    + assert (Hlt : (x.2 <= y.2)%Q).
      { apply Qnot_lt_le. intros Hlt. apply Qlt_le_weak, Qle_bool_iff in Hlt. congruence. }
      constructor; [done|].
      rewrite insert_desc_perm. by constructor.
Qed.

Lemma sort_desc_sorted l :
  StronglySorted (fun a b : Z * Q => (b.2 <= a.2)%Q) (sort_desc l).
Proof.
  induction l as [|x l IH]; simpl; [constructor|]. by apply insert_desc_sorted.
Qed.

Lemma filter_perm {A} (f : A -> bool) (l l' : list A) :
  l ≡ₚ l' -> List.filter f l ≡ₚ List.filter f l'.
Proof.
  induction 1 as [|x l l' _ IH|x y l|l1 l2 l3 _ IH1 _ IH2]; simpl.
  - done.
  - destruct (f x); [by constructor | done].
  - destruct (f x), (f y); try done. apply Permutation_swap.
  - by etrans.
Qed.

Lemma filter_strongly_sorted {A} (R : relation A) (f : A -> bool) l :
  StronglySorted R l -> StronglySorted R (List.filter f l).
Proof.
  induction 1 as [|x l Hl IH Hx]; simpl; [constructor|].
  destruct (f x); [|done]. constructor; [done|].
  apply Forall_forall. intros y Hy.
  apply list_elem_of_In, filter_In in Hy as [Hy _].
  rewrite Forall_forall in Hx. apply Hx. by apply list_elem_of_In.
Qed.

Lemma filter_scored (score : Z -> Q) (cs : list Z) :
  fst <$> List.filter (fun '(c, score) => negb (Qle_bool score 0.2))
            ((fun c => (c, score c)) <$> cs)
  = List.filter (fun c => negb (Qle_bool (score c) 0.2)) cs.
Proof.
  induction cs as [|c cs IH]; csimpl; [done|].
  destruct (negb _); csimpl; by rewrite IH.
Qed.

Lemma score_positive self c :
  negb (Qle_bool (get_river_score self c) 0.2) = true -> c mod 10 ∈ [1; 3; 7; 9].
Proof.
  unfold get_river_score. destruct (bool_decide (c mod 10 ∈ [1; 3; 7; 9])) eqn:Hd.
  - intros _. by apply bool_decide_eq_true_1 in Hd.
  - simpl. done.
Qed.

(** X27: [optimize_candidates] returns the candidates whose river score is
    above 0.2, each as often as the input has it, by descending score; a
    candidate that does not end in 1, 3, 7 or 9 is never returned. *)
Theorem optimize_candidates_spec self cs :
  optimize_candidates self cs
    ≡ₚ List.filter (fun c => negb (Qle_bool (get_river_score self c) 0.2)) cs /\
  StronglySorted (fun a b => (get_river_score self b <= get_river_score self a)%Q)
    (optimize_candidates self cs) /\
  forall c, c ∈ optimize_candidates self cs -> c mod 10 ∈ [1; 3; 7; 9].
Proof.
  assert (Hperm : optimize_candidates self cs
    ≡ₚ List.filter (fun c => negb (Qle_bool (get_river_score self c) 0.2)) cs).
  { unfold optimize_candidates. rewrite <- (filter_scored (get_river_score self) cs).
    apply fmap_Permutation, filter_perm, sort_desc_perm. }
  split; [done|]. split.
  - unfold optimize_candidates.
    set (scored := (fun c => (c, get_river_score self c)) <$> cs).
    assert (Hall : Forall (fun x : Z * Q => x.2 = get_river_score self x.1)
                     (List.filter (fun '(c, score) => negb (Qle_bool score 0.2))
                        (sort_desc scored))).
    { apply Forall_forall. intros x Hx.
      apply list_elem_of_In, filter_In in Hx as [Hx _]. apply list_elem_of_In in Hx.
      rewrite sort_desc_perm in Hx. unfold scored in Hx.
      apply list_elem_of_fmap in Hx as (c & -> & _). done. }
    pose proof (filter_strongly_sorted _ (fun '(c, score) => negb (Qle_bool score 0.2)) _
                  (sort_desc_sorted scored)) as Hs.
    revert Hall Hs. generalize (List.filter (fun '(c, score) => negb (Qle_bool score 0.2))
                                  (sort_desc scored)).
    intros l Hall Hs. induction Hs as [|x l Hl IH Hx]; csimpl; [constructor|].
    apply Forall_cons in Hall as [Hx1 Hall]. constructor; [by apply IH|].
    apply Forall_fmap. rewrite Forall_forall in Hx, Hall. apply Forall_forall.
    intros y Hy. simpl. rewrite <- Hx1, <- (Hall y Hy). by apply Hx.
  - intros c Hc. rewrite Hperm in Hc.
    apply list_elem_of_In, filter_In in Hc as [_ Hc]. by apply (score_positive self).
Qed.

Lemma insert_low (g : Z -> bool) (c : Z) (A B : list Z) :
  Forall (fun a => g a = true) A -> Forall (fun b => g b = false) B ->
  insert_desc (c, 0.0%Q)
    (((fun c => (c, (if g c then 0.5 else 0.0)%Q)) <$> A)
     ++ ((fun c => (c, (if g c then 0.5 else 0.0)%Q)) <$> B))
  = ((fun c => (c, (if g c then 0.5 else 0.0)%Q)) <$> A)
    ++ (c, 0.0%Q) :: ((fun c => (c, (if g c then 0.5 else 0.0)%Q)) <$> B).
Proof.
  intros HA HB. induction HA as [|a A Ha HA IH]; csimpl.
  - destruct HB as [|b B Hb HB]; csimpl; [done|]. by rewrite Hb.
  - rewrite Ha. simpl. by rewrite IH.
Qed.

Lemma insert_high (g : Z -> bool) (c : Z) (l : list Z) :
  insert_desc (c, 0.5%Q) ((fun c => (c, (if g c then 0.5 else 0.0)%Q)) <$> l)
  = (c, 0.5%Q) :: ((fun c => (c, (if g c then 0.5 else 0.0)%Q)) <$> l).
Proof. destruct l as [|a l]; csimpl; [done|]. by destruct (g a). Qed.

Lemma sort_two_level (g : Z -> bool) (cs : list Z) :
  sort_desc ((fun c => (c, (if g c then 0.5 else 0.0)%Q)) <$> cs)
  = (fun c => (c, (if g c then 0.5 else 0.0)%Q))
      <$> (List.filter g cs ++ List.filter (fun c => negb (g c)) cs).
Proof.
  induction cs as [|c cs IH]; csimpl; [done|].
  rewrite IH. destruct (g c) eqn:Hc; csimpl.
  - rewrite insert_high. by rewrite Hc.
  - rewrite !fmap_app. rewrite insert_low; [csimpl; by rewrite Hc| |].
    + apply Forall_forall. intros a Ha. by apply list_elem_of_In, filter_In in Ha as [_ Ha].
    + apply Forall_forall. intros a Ha.
      apply list_elem_of_In, filter_In in Ha as [_ Ha]. by destruct (g a).
Qed.

(** X28: on an instance that has analysed nothing, [optimize_candidates]
    keeps the candidates ending in 1, 3, 7 or 9 and leaves them in their
    order. *)
Theorem optimize_candidates_fresh cs :
  optimize_candidates init cs
  = List.filter (fun c => bool_decide (c mod 10 ∈ [1; 3; 7; 9])) cs.
Proof.
  unfold optimize_candidates.
  set (g := fun c : Z => bool_decide (c mod 10 ∈ [1; 3; 7; 9])).
  assert (Hscore : forall c, get_river_score init c = (if g c then 0.5 else 0.0)%Q).
  { intros c. unfold get_river_score, g. by destruct (bool_decide _). }
  rewrite (list_fmap_ext _ (fun c => (c, (if g c then 0.5 else 0.0)%Q)) cs)
    by (intros ? c _; by rewrite Hscore).
  rewrite sort_two_level, fmap_app, List.filter_app, fmap_app.
  assert (H1 : forall l, Forall (fun a => g a = true) l ->
    fst <$> List.filter (fun '(c, score) => negb (Qle_bool score 0.2))
              ((fun c => (c, (if g c then 0.5 else 0.0)%Q)) <$> l) = l).
  { induction 1 as [|a l Ha _ IH]; csimpl; [done|]. rewrite Ha.
    change (negb (Qle_bool 0.5 0.2)) with true. csimpl. by rewrite IH. }
  assert (H2 : forall l, Forall (fun a => g a = false) l ->
    fst <$> List.filter (fun '(c, score) => negb (Qle_bool score 0.2))
              ((fun c => (c, (if g c then 0.5 else 0.0)%Q)) <$> l) = []).
  { induction 1 as [|a l Ha _ IH]; csimpl; [done|]. rewrite Ha.
    change (negb (Qle_bool 0.0 0.2)) with false. csimpl. by rewrite IH. }
  rewrite H1, H2; [by rewrite app_nil_r| |].
  - apply Forall_forall. intros a Ha.
    apply list_elem_of_In, filter_In in Ha as [_ Ha]. by destruct (g a).
  - apply Forall_forall. intros a Ha. by apply list_elem_of_In, filter_In in Ha as [_ Ha].
Qed.

End OptimizeFacts.

Module TransitionFacts.
Import Rivers Predicates RiversMore.

Lemma count_transitions_step p q rest (tm : gmap Z (gmap Z Z)) :
  count_transitions (p :: q :: rest) tm
  = count_transitions (q :: rest)
      (if (5 <? p) && (5 <? q) then
         <[p mod 10 := incr (q mod 10) (default ∅ (tm !! (p mod 10)))]> tm
       else tm).
Proof. reflexivity. Qed.

Lemma count_transitions_lookup primes (tm : gmap Z (gmap Z Z)) a b :
  default 0 (default ∅ (count_transitions primes tm !! a) !! b)
  = default 0 (default ∅ (tm !! a) !! b)
    + Z.of_nat (length (List.filter (transition a b) (zip primes (tail primes)))).
Proof.
  revert tm. induction primes as [|p primes IH]; intros tm; [simpl; lia|].
  destruct primes as [|q primes]; [simpl; lia|].
  rewrite count_transitions_step, IH.
  change (zip (p :: q :: primes) (tail (p :: q :: primes)))
    with ((p, q) :: zip (q :: primes) (tail (q :: primes))).
  cbn [List.filter]. unfold transition at 2. cbn [fst snd].
  destruct ((5 <? p) && (5 <? q)); simpl andb.
  - destruct (Z.eqb_spec (p mod 10) a) as [<- | Hne]; simpl andb.
    + rewrite lookup_insert_eq. simpl. rewrite incr_lookup.
      destruct (q mod 10 =? b); simpl length; lia.
    + rewrite lookup_insert_ne by done. lia.
  - lia.
Qed.

(** X29: after [analyze_primes(primes)] on a new instance, the transition
    count from digit [a] to digit [b] is the number of neighbouring pairs
    of [primes], both above 5, that end in [a] and in [b]. *)
Theorem analyze_primes_transitions primes a b :
  default 0 (default ∅ (transition_matrix (analyze_primes init primes) !! a) !! b)
  = Z.of_nat (length (List.filter (transition a b) (zip primes (tail primes)))).
Proof. simpl. rewrite count_transitions_lookup. by rewrite lookup_empty. Qed.

End TransitionFacts.

(* ===================================================================== *)
(** ** Signing *)
(* ===================================================================== *)

Module SignFacts.
Import Coibite CoibiteFacts.

Lemma sample_accepts_own_keys : accepts_own_keys Sample.lib.
Proof. intros sk k data. simpl. by rewrite String.eqb_refl. Qed.

Section WithLib.
Context `{L : Lib}.

Lemma signed_has_signature self sk k signed :
  sign self sk k = Ok signed -> signature signed <> Some "" ->
  exists data, _get_signing_data signed = Ok data /\
    signature signed = Some (ecdsa_sign sk k data) /\
    has_signature signed = Some (ecdsa_sign sk k data).
Proof.
  intros Hsign Hne. apply sign_inv in Hsign as (data & _ & Hd & Hs).
  exists data. split; [done|]. split; [done|]. unfold has_signature. rewrite Hs.
  rewrite Hs in Hne.
  destruct (String.eqb_spec (ecdsa_sign sk k data) "") as [Heq|]; [|done].
  by rewrite Heq in Hne.
Qed.

Lemma signing_data_ext (a b : CoibiteCode) :
  prime a = prime b -> timestamp a = timestamp b -> metadata a = metadata b ->
  _get_signing_data a = _get_signing_data b.
Proof.
  intros Hp Ht Hm. unfold _get_signing_data, _hash_prime. by rewrite Hp, Ht, Hm.
Qed.

End WithLib.

(** X30: a record signed with a private key verifies under the matching
    public key, for a library whose signatures verify under their own key
    and when the signature is not empty; and so does the record decoded
    from its encoding with the prime included, when [int(str(prime))] and
    base64 decoding give back their arguments and [metadata or {}] leaves
    the metadata as it is. *)
Theorem signed_code_verifies (L : Lib) self sk k signed :
  accepts_own_keys L ->
  sign self sk k = Ok signed ->
  signature signed <> Some "" ->
  verify signed (public_key sk) = Ok true /\
  forall data,
    encode_data signed true = Ok data ->
    (if truthy (metadata self) then metadata self else VDict ∅) = metadata self ->
    int_str (str_int (prime self)) = Some (prime self) ->
    (forall sig, b64decode (b64encode sig) = Some sig) ->
    exists decoded, decode_data (VDict data) = Ok decoded /\
                    verify decoded (public_key sk) = Ok true.
Proof.
  intros Hown Hsign Hne.
  destruct (signed_has_signature _ _ _ _ Hsign Hne) as (sdata & Hd & Hsg & Hs).
  assert (Hv : verify signed (public_key sk) = Ok true).
  { unfold verify. rewrite Hs, Hd. by rewrite (Hown sk k sdata). }
  split; [done|]. intros data Henc Hmd Hint Hb64.
  assert (Hfields : prime signed = prime self /\ timestamp signed = timestamp self /\
                    metadata signed = metadata self).
  { unfold sign in Hsign.
    destruct (_get_signing_data self) as [sd| |]; simpl in Hsign; [|done|done].
    by injection Hsign as <-. }
  destruct Hfields as (Hfp & Hft & Hfm).
  apply encode_data_inv in Henc as (checksum & _ & Hver & Ht & Hm & _ & Hp & Hsig).
  rewrite Hs in Hsig. simpl in Hsig.
  eexists. split.
  - unfold decode_data. rewrite Hver, Hp, Ht, Hm, Hsig. simpl.
    rewrite Hfp, Hint, Hfm, Hmd, Hb64. reflexivity.
  - unfold verify, has_signature. simpl.
    destruct (String.eqb_spec (ecdsa_sign sk k sdata) "") as [Heq|_].
    { rewrite Hsg, Heq in Hne. done. }
    rewrite (signing_data_ext _ signed) by (simpl; congruence).
    rewrite Hd. by rewrite (Hown sk k sdata).
Qed.

Lemma signed_code_verifies_witness :
  exists signed,
    sign (L := Sample.lib)
      {| prime := 65537; timestamp := VFloat 1%Q;
         metadata := VDict {["bits" := VInt 17]}; signature := None |} "key" tt
    = Ok signed /\
    verify (L := Sample.lib) signed "key" = Ok true.
Proof.
  eexists. split; [reflexivity|].
  apply (signed_code_verifies Sample.lib
           {| prime := 65537; timestamp := VFloat 1%Q;
              metadata := VDict {["bits" := VInt 17]}; signature := None |}
           "key" tt _ sample_accepts_own_keys eq_refl).
  by vm_compute.
Defined.

End SignFacts.
